(** * Phonetic confusion analysis (data2.js): a shallow embedding

    The script scores every name of a list ([calculateComplexity]), groups the
    names by their Double Metaphone code ([phoneticMap]), turns every group of
    two or more names into a cluster ([clusters]) scored by
    [calculateConfusionScore], and sorts the clusters by that score.

    Conventions of the embedding.
    - A JavaScript Number is a value of [num]: an exact rational, or one of the
      three special values NaN, +Infinity and -Infinity that the script can
      reach through a division by zero or an empty [Math.min]/[Math.max].
      Rounding of binary64 arithmetic is not modelled, and the two zeros are
      identified (a zero divisor behaves as +0).
    - A JavaScript string is the list of its UTF-16 code units.
    - The three functions the script takes from npm packages
      ([natural.JaroWinklerDistance], [natural.LevenshteinDistance],
      [doubleMetaphone]) are variables of a section; what is assumed about
      them is stated as hypotheses where it is used. *)

From Stdlib Require Import Ascii String.
From Stdlib Require Import List Bool Arith ZArith NArith QArith Qminmax Lia Lqa.
From Stdlib Require Import Permutation Sorted.
From Stdlib Require DecimalString DecimalN.
Import ListNotations.

Set Implicit Arguments.

(** ** Numbers *)

Inductive num : Type :=
| Fin (q : Q)
| NaN
| PInf
| NInf.

Definition num_of_nat (n : nat) : num := Fin (inject_Z (Z.of_nat n)).
Definition num_of_Z (z : Z) : num := Fin (inject_Z z).

(** Same number: rationals up to [Qeq], special values up to identity.  This is
    equality of the denoted value, not the [===] of the language (under which
    NaN differs from itself). *)
Definition num_eq (a b : num) : Prop :=
  match a, b with
  | Fin p, Fin q => (p == q)%Q
  | NaN, NaN => True
  | PInf, PInf => True
  | NInf, NInf => True
  | _, _ => False
  end.

Definition num_neg (a : num) : num :=
  match a with
  | Fin q => Fin (- q)
  | NaN => NaN
  | PInf => NInf
  | NInf => PInf
  end.

(** Sum.  The sum of two rationals is exact, where the language rounds it to
    the nearest Number: a result computed here can differ from the one of
    an engine in its last digit. *)
Definition num_add (a b : num) : num :=
  match a, b with
  | NaN, _ | _, NaN => NaN
  | Fin p, Fin q => Fin (p + q)
  | PInf, NInf | NInf, PInf => NaN
  | PInf, _ | _, PInf => PInf
  | NInf, _ | _, NInf => NInf
  end.

Definition num_sub (a b : num) : num := num_add a (num_neg b).

(** An infinity scaled by the rational [q]: NaN for zero. *)
Definition scale_inf (positive : bool) (q : Q) : num :=
  match (q ?= 0)%Q with
  | Eq => NaN
  | Gt => if positive then PInf else NInf
  | Lt => if positive then NInf else PInf
  end.

Definition num_mul (a b : num) : num :=
  match a, b with
  | NaN, _ | _, NaN => NaN
  | Fin p, Fin q => Fin (p * q)
  | Fin p, PInf | PInf, Fin p => scale_inf true p
  | Fin p, NInf | NInf, Fin p => scale_inf false p
  | PInf, PInf | NInf, NInf => PInf
  | PInf, NInf | NInf, PInf => NInf
  end.

(** Division: a zero divisor gives NaN for [0/0] and an infinity of the sign
    of the dividend otherwise.  The quotient of two rationals is exact, where
    the language rounds it; and the zero divisor is read as +0, where the
    language also has -0 (which the script reaches only for a value read
    from a numeral such as -0) and gives the opposite infinity for it. *)
Definition num_div (a b : num) : num :=
  match a, b with
  | NaN, _ | _, NaN => NaN
  | Fin p, Fin q =>
      match (q ?= 0)%Q with
      | Eq => match (p ?= 0)%Q with
              | Eq => NaN
              | Gt => PInf
              | Lt => NInf
              end
      | _ => Fin (p / q)
      end
  | Fin _, (PInf | NInf) => Fin 0
  | (PInf | NInf), (PInf | NInf) => NaN
  | PInf, Fin q => match (q ?= 0)%Q with Lt => NInf | _ => PInf end
  | NInf, Fin q => match (q ?= 0)%Q with Lt => PInf | _ => NInf end
  end.

(** [a < b] of the language: false as soon as one side is NaN. *)
Definition num_ltb (a b : num) : bool :=
  match a, b with
  | NaN, _ | _, NaN => false
  | Fin p, Fin q => match (p ?= q)%Q with Lt => true | _ => false end
  | NInf, (Fin _ | PInf) => true
  | Fin _, PInf => true
  | _, _ => false
  end.

Definition num_gtb (a b : num) : bool := num_ltb b a.

(** [Math.min] and [Math.max] of two arguments: NaN is absorbing. *)
Definition min2 (a b : num) : num :=
  match a, b with
  | NaN, _ | _, NaN => NaN
  | _, _ => if num_ltb b a then b else a
  end.

Definition max2 (a b : num) : num :=
  match a, b with
  | NaN, _ | _, NaN => NaN
  | _, _ => if num_ltb a b then b else a
  end.

(** [Math.min(...xs)] and [Math.max(...xs)]: the neutral elements are
    +Infinity and -Infinity, which is what the calls return on no argument. *)
Definition Math_min (xs : list num) : num := fold_left min2 xs PInf.
Definition Math_max (xs : list num) : num := fold_left max2 xs NInf.

(** ** Strings *)

Definition codeunit : Type := N.
Definition jsstring : Type := list codeunit.

Definition jsstring_eq_dec : forall a b : jsstring, {a = b} + {a <> b} :=
  list_eq_dec N.eq_dec.

Definition str_eqb (a b : jsstring) : bool :=
  if jsstring_eq_dec a b then true else false.

(** A literal of the source (ASCII only). *)
Definition lit (s : string) : jsstring :=
  map N_of_ascii (list_ascii_of_string s).

Definition in_range (lo hi c : N) : bool := (lo <=? c)%N && (c <=? hi)%N.

(** [/[aeiouy]/i] on one code unit.  Without the [u] flag the case-insensitive
    match never folds a code unit above 127 onto an ASCII one, so the class
    is exactly these twelve letters. *)
Definition is_vowel (c : codeunit) : bool :=
  existsb (N.eqb c) (lit "aeiouyAEIOUY").

(** [str.match(/[aeiouy]+/gi)]: the maximal runs of vowels from left to right,
    [None] (the language's [null]) when there is none.  [run] is the run being
    read. *)
Fixpoint vowel_scan (s : jsstring) (run : jsstring) : list jsstring :=
  match s with
  | [] => match run with [] => [] | _ => [run] end
  | c :: t =>
      if is_vowel c then vowel_scan t (run ++ [c])
      else match run with
           | [] => vowel_scan t []
           | _ => run :: vowel_scan t []
           end
  end.

Definition match_vowels (s : jsstring) : option (list jsstring) :=
  match vowel_scan s [] with
  | [] => None
  | l => Some l
  end.

(** [m || []] for a match result. *)
Definition or_empty (A : Type) (m : option (list A)) : list A :=
  match m with Some l => l | None => [] end.

(** [[...s]]: the string iterator yields code points, a surrogate pair being
    one element and a lone surrogate one element too. *)
Definition is_high_surrogate (c : codeunit) : bool := in_range 55296 56319 c.
Definition is_low_surrogate (c : codeunit) : bool := in_range 56320 57343 c.

Fixpoint spread (s : jsstring) : list jsstring :=
  match s with
  | [] => []
  | c :: t =>
      match t with
      | d :: t' =>
          if is_high_surrogate c && is_low_surrogate d
          then [c; d] :: spread t'
          else [c] :: spread t
      | [] => [[c]]
      end
  end.

(** [s.toLowerCase()], restricted to the mappings that can produce a code unit
    in a-z: the ASCII capitals, U+0130 (lower case: i followed by U+0307) and
    the Kelvin sign U+212A (lower case: k).  Every other character has a
    lower-case form outside a-z and is left as it is, which does not change
    the test [/[a-z]/] the script applies to the result. *)
Definition lower_unit (c : codeunit) : jsstring :=
  if in_range 65 90 c then [(c + 32)%N]
  else if (c =? 304)%N then [105%N; 775%N]
  else if (c =? 8490)%N then [107%N]
  else [c].

Definition toLowerCase (s : jsstring) : jsstring := flat_map lower_unit s.

(** [/[a-z]/.test(s)] *)
Definition test_a_z (s : jsstring) : bool := existsb (in_range 97 122) s.

(** ** Records of the script *)

Record Entry : Type := {
  name : jsstring;
  value : num;
  complexity : num
}.

Module ComplexityFactors.
Record t : Type := {
  length : num;
  syllableCount : num;
  nonStandardChars : num;
  orthoNeighbors : num;
  phoneticDensity : num
}.
(** [Object.values]: the properties in creation order. *)
Definition values (f : t) : list num :=
  [length f; syllableCount f; nonStandardChars f; orthoNeighbors f;
   phoneticDensity f].
End ComplexityFactors.

Module ConfusionFactors.
Record t : Type := {
  sizePenalty : num;
  complexity : num;
  valueSpread : num;
  orthoDiversity : num
}.
End ConfusionFactors.

Record Cluster : Type := {
  names : list jsstring;
  entries : list Entry;
  phoneticCode : jsstring;
  avgValue : num;
  avgComplexity : num;
  confusionScore : num
}.

(** ** Insertion-ordered maps ([Map]) *)

Section OrderedMap.
Variable V : Type.

Definition OMap : Type := list (jsstring * V).

Fixpoint map_get (m : OMap) (k : jsstring) : option V :=
  match m with
  | [] => None
  | (k', v) :: m' => if str_eqb k' k then Some v else map_get m' k
  end.

Definition map_has (m : OMap) (k : jsstring) : bool :=
  match map_get m k with Some _ => true | None => false end.

(** [m.set(k, v)]: a present key keeps its place, a new key goes last. *)
Fixpoint map_set (m : OMap) (k : jsstring) (v : V) : OMap :=
  match m with
  | [] => [(k, v)]
  | (k', v') :: m' =>
      if str_eqb k' k then (k', v) :: m' else (k', v') :: map_set m' k v
  end.

(** The map with the keys [ks], in that order, and the values [f k]. *)
Definition tabulate (f : jsstring -> V) (ks : list jsstring) : OMap :=
  map (fun k => (k, f k)) ks.
End OrderedMap.

(** [m.get(k).push(x)]: the array stored under [k] grows in place; on an
    absent key [get] gives [undefined] and the call throws ([None]). *)
Definition map_push (A : Type) (m : OMap (list A)) (k : jsstring) (x : A)
  : option (OMap (list A)) :=
  match map_get m k with
  | Some arr => Some (map_set m k (arr ++ [x]))
  | None => None
  end.

(** [Array.prototype.join] *)
Fixpoint join (sep : jsstring) (parts : list jsstring) : jsstring :=
  match parts with
  | [] => []
  | [p] => p
  | p :: rest => p ++ sep ++ join sep rest
  end.

(** [Array.prototype.sort(cmp)].  The language requires the sort to be stable
    and fixes its result for a consistent comparator; the model is the stable
    insertion sort.  A comparator result that is NaN counts as +0, so an
    element moves in front of another only when [cmp] of the two is [> 0].

    For a comparator that is not consistent (here: when a score is NaN) the
    language leaves the order to the engine and promises only a
    rearrangement of the elements: the order [Array_sort] returns there is
    one possible order, not the one of a particular engine.  What is proved
    of the sorted list either assumes that no score is NaN, or uses only
    that it is a rearrangement. *)
Section ArraySort.
Variable A : Type.
Variable cmp : A -> A -> num.

Fixpoint sort_insert (x : A) (sorted : list A) : list A :=
  match sorted with
  | [] => [x]
  | y :: rest =>
      if num_gtb (cmp y x) (Fin 0) then x :: y :: rest
      else y :: sort_insert x rest
  end.

Definition Array_sort (l : list A) : list A :=
  fold_left (fun sorted x => sort_insert x sorted) l [].
End ArraySort.

(** ** Reading the data

    [data.split('\n').filter(line => line.trim()).map(line => ...)]: the
    lines of the file that are not blank, each cut at its commas. *)

(** [s.split(sep)] for a separator of one code unit: the pieces between the
    occurrences of the separator, so at least one piece.  [piece] is the
    piece being read. *)
Fixpoint split_from (sep : codeunit) (s : jsstring) (piece : jsstring)
  : list jsstring :=
  match s with
  | [] => [piece]
  | c :: t =>
      if (c =? sep)%N then piece :: split_from sep t []
      else split_from sep t (piece ++ [c])
  end.

Definition split (sep : codeunit) (s : jsstring) : list jsstring :=
  split_from sep s [].

Definition newline : codeunit := 10%N.
Definition comma : codeunit := 44%N.

(** White space and line terminators of the language, what [trim] and
    [parseInt] skip. *)
Definition is_space (c : codeunit) : bool :=
  in_range 9 13 c || (c =? 32)%N || (c =? 160)%N || (c =? 5760)%N
  || in_range 8192 8202 c || (c =? 8232)%N || (c =? 8233)%N
  || (c =? 8239)%N || (c =? 8287)%N || (c =? 12288)%N || (c =? 65279)%N.

Fixpoint trim_start (s : jsstring) : jsstring :=
  match s with
  | c :: t => if is_space c then trim_start t else s
  | [] => []
  end.

(** [s.trim()] *)
Definition trim (s : jsstring) : jsstring :=
  rev (trim_start (rev (trim_start s))).

(** The filter keeps a line when [line.trim()] is truthy: not empty. *)
Definition not_blank (line : jsstring) : bool :=
  match trim line with [] => false | _ => true end.

Definition is_digit (c : codeunit) : bool := in_range 48 57 c.

Fixpoint take_digits (s : jsstring) : jsstring :=
  match s with
  | c :: t => if is_digit c then c :: take_digits t else []
  | [] => []
  end.

Definition digits_value (ds : jsstring) : N :=
  fold_left (fun acc c => (10 * acc + (c - 48))%N) ds 0%N.

(** [parseInt(s, 10)]: leading white space is skipped, one sign is read, then
    the longest run of decimal digits; NaN when that run is empty.  What
    follows the digits is ignored.

    The result is the integer the digits denote.  The language returns the
    Number nearest to it, which is that integer up to 2^53 in absolute value;
    beyond, the language rounds (and gives an infinity for a numeral of more
    than 308 digits), which [parseInt10] does not follow.  What is proved of
    values read by [parseInt10] either bounds them by 2^53 or does not depend
    on the value read. *)
Definition parseInt10 (s : jsstring) : num :=
  let s1 := trim_start s in
  let signed :=
    match s1 with
    | c :: t =>
        if (c =? 45)%N then (true, t)
        else if (c =? 43)%N then (false, t)
        else (false, s1)
    | [] => (false, s1)
    end in
  match take_digits (snd signed) with
  | [] => NaN
  | ds =>
      let m := Z.of_N (digits_value ds) in
      num_of_Z (if fst signed then (- m)%Z else m)
  end.

(** [parseInt(value, 10)] for a destructured [value]: a field that is missing
    is [undefined], which [parseInt] reads as the string "undefined". *)
Definition parseInt_field (value : option jsstring) : num :=
  parseInt10 (match value with Some v => v | None => lit "undefined" end).

(** [const [name, value] = line.split(',')] and the two fields of the entry
    read from them. *)
Definition row_of_line (line : jsstring) : jsstring * num :=
  let fields := split comma line in
  (hd [] fields, parseInt_field (nth_error fields 1)).

Definition rows_of_data (data : jsstring) : list (jsstring * num) :=
  map row_of_line (filter not_blank (split newline data)).

(** The decimal numeral of a natural number, and a line of the file holding
    a name and such a numeral. *)
Definition decimal (n : N) : jsstring :=
  lit (DecimalString.NilZero.string_of_uint (N.to_uint n)).

Definition line_of (row : jsstring * N) : jsstring :=
  fst row ++ [comma] ++ decimal (snd row).

(** ** Predicates on numbers *)

(** A rational of the unit interval. *)
Definition in01 (x : num) : Prop :=
  match x with
  | Fin q => (0 <= q <= 1)%Q
  | _ => False
  end.

(** A rational that is not negative. *)
Definition nonneg (x : num) : Prop :=
  match x with
  | Fin q => (0 <= q)%Q
  | _ => False
  end.

(** A non-negative integer, what [parseInt] gives on a well-formed line. *)
Definition nonneg_int (x : num) : Prop :=
  exists z : Z, (0 <= z)%Z /\ x = num_of_Z z.

(** The order of the numbers that are not NaN. *)
Definition num_le (a b : num) : Prop :=
  match a, b with
  | NaN, _ | _, NaN => False
  | NInf, _ | _, PInf => True
  | Fin p, Fin q => (p <= q)%Q
  | _, _ => False
  end.

(** [a === b] *)
Definition num_eqb (a b : num) : bool :=
  match a, b with
  | Fin p, Fin q => Qeq_bool p q
  | PInf, PInf | NInf, NInf => true
  | _, _ => false
  end.

(** ** Instances of the external functions

    Used to evaluate the script on concrete inputs: the textbook edit distance
    with unit costs, the coarsest similarity (1 on equal strings, 0
    otherwise), and an encoder that keeps the first code unit of the name,
    upper-cased, as primary code with no secondary code. *)

Fixpoint ref_levenshtein (a b : jsstring) : nat :=
  match a with
  | [] => length b
  | x :: a' =>
      (fix inner (b : jsstring) : nat :=
         match b with
         | [] => length a
         | y :: b' =>
             Nat.min (Nat.min (S (ref_levenshtein a' b)) (S (inner b')))
               ((if (x =? y)%N then 0 else 1) + ref_levenshtein a' b')
         end) b
  end.

Definition ref_similarity (a b : jsstring) : num :=
  if str_eqb a b then Fin 1 else Fin 0.

Definition upper_unit (c : codeunit) : codeunit :=
  if in_range 97 122 c then (c - 32)%N else c.

Definition ref_encoder (s : jsstring) : jsstring * jsstring :=
  (map upper_unit (firstn 1 s), []).

(** The comparator [(a, b) => key(b) - key(a)] and the order it sorts by:
    larger keys first. *)
Definition desc_cmp (A : Type) (key : A -> num) (a b : A) : num :=
  num_sub (key b) (key a).

Definition desc (A : Type) (key : A -> num) (a b : A) : Prop :=
  num_le (key b) (key a).

(** ** The script *)

Section Script.
(** [natural.JaroWinklerDistance]: a similarity. *)
Variable JaroWinklerDistance : jsstring -> jsstring -> num.
(** [natural.LevenshteinDistance]: an edit distance, a count. *)
Variable LevenshteinDistance : jsstring -> jsstring -> nat.
(** [doubleMetaphone]: the array of the primary and the secondary code. *)
Variable doubleMetaphone : jsstring -> jsstring * jsstring.

Definition complexityFactors (name : jsstring) : ComplexityFactors.t :=
  {| ComplexityFactors.length :=
       min2 (Fin 1) (num_div (num_of_nat (length name)) (Fin 10));
     ComplexityFactors.syllableCount :=
       num_div (num_of_nat (length (or_empty (match_vowels name)))) (Fin 5);
     ComplexityFactors.nonStandardChars :=
       num_div
         (num_of_nat
            (length (filter (fun c => negb (test_a_z (toLowerCase c)))
                       (spread name))))
         (Fin 3);
     ComplexityFactors.orthoNeighbors :=
       num_sub (Fin 1) (JaroWinklerDistance name (lit "standard"));
     ComplexityFactors.phoneticDensity := Fin 0 |}.

Definition calculateComplexity (name : jsstring) : num :=
  fold_left num_add (ComplexityFactors.values (complexityFactors name))
    (Fin 0).

(** One parsed line: the entry of [entries] for a name and its value. *)
Definition mkEntry (row : jsstring * num) : Entry :=
  {| name := fst row;
     value := snd row;
     complexity := calculateComplexity (fst row) |}.

(** *** [calculateOrthographicDiversity] *)

Record DiversityState : Type := {
  totalDiff : num;
  comparisons : nat
}.

Definition diversity_inner (samples : list jsstring) (i : nat)
    (st : DiversityState) (j : nat) : DiversityState :=
  let si := nth i samples [] in
  let sj := nth j samples [] in
  {| totalDiff :=
       num_add (totalDiff st)
         (num_div (num_of_nat (LevenshteinDistance si sj))
            (max2 (num_of_nat (length si)) (num_of_nat (length sj))));
     comparisons := S (comparisons st) |}.

Definition diversity_outer (samples : list jsstring)
    (st : DiversityState) (i : nat) : DiversityState :=
  fold_left (diversity_inner samples i)
    (seq (i + 1) (length samples - (i + 1))) st.

Definition diversity_loops (samples : list jsstring) : DiversityState :=
  fold_left (diversity_outer samples) (seq 0 (length samples))
    {| totalDiff := Fin 0; comparisons := 0 |}.

Definition calculateOrthographicDiversity (names : list jsstring) : num :=
  let samples := firstn 5 names in
  let st := diversity_loops samples in
  if 0 <? comparisons st
  then num_div (totalDiff st) (num_of_nat (comparisons st))
  else Fin 0.

(** *** [calculateConfusionScore] *)

Definition confusionFactors (group : list Entry) : ConfusionFactors.t :=
  let names := map name group in
  let complexities := map complexity group in
  {| ConfusionFactors.sizePenalty :=
       min2 (Fin 1) (num_div (num_of_nat (length names)) (Fin 5));
     ConfusionFactors.complexity :=
       min2 (Fin 1) (Math_max complexities);
     ConfusionFactors.valueSpread :=
       num_sub (Fin 1)
         (num_div (Math_min (map value group)) (Math_max (map value group)));
     ConfusionFactors.orthoDiversity :=
       calculateOrthographicDiversity names |}.

Definition calculateConfusionScore (group : list Entry) : num :=
  let factors := confusionFactors group in
  num_add
    (num_add
       (num_add
          (num_mul (ConfusionFactors.sizePenalty factors) (Fin (3 # 10)))
          (num_mul (ConfusionFactors.complexity factors) (Fin (4 # 10))))
       (num_mul (ConfusionFactors.valueSpread factors) (Fin (2 # 10))))
    (num_mul (ConfusionFactors.orthoDiversity factors) (Fin (1 # 10))).

(** *** [phoneticMap] *)

Definition separator : jsstring := lit "|".

Definition code_of (e : Entry) : jsstring :=
  let codes := doubleMetaphone (name e) in
  join separator [fst codes; snd codes].

Definition index_step (m : OMap (list Entry)) (entry : Entry)
  : option (OMap (list Entry)) :=
  let code := code_of entry in
  let m1 := if negb (map_has m code) then map_set m code [] else m in
  map_push m1 code entry.

Fixpoint index_from (m : OMap (list Entry)) (es : list Entry)
  : option (OMap (list Entry)) :=
  match es with
  | [] => Some m
  | e :: rest =>
      match index_step m e with
      | Some m' => index_from m' rest
      | None => None
      end
  end.

Definition phoneticMap (es : list Entry) : option (OMap (list Entry)) :=
  index_from [] es.

(** *** [clusters] *)

Definition mkCluster (code : jsstring) (group : list Entry) : Cluster :=
  {| names := map name group;
     entries := group;
     phoneticCode := code;
     avgValue :=
       num_div (fold_left (fun a b => num_add a (value b)) group (Fin 0))
         (num_of_nat (length group));
     avgComplexity :=
       num_div (fold_left (fun a b => num_add a (complexity b)) group (Fin 0))
         (num_of_nat (length group));
     confusionScore := calculateConfusionScore group |}.

Definition clusters_step (acc : list Cluster)
    (bucket : jsstring * list Entry) : list Cluster :=
  let (code, group) := bucket in
  if 1 <? length group then acc ++ [mkCluster code group] else acc.

Definition clusters (m : OMap (list Entry)) : list Cluster :=
  fold_left clusters_step m [].

(** *** The sort and the whole run *)

Definition by_score_desc (a b : Cluster) : num :=
  num_sub (confusionScore b) (confusionScore a).

Definition rank (cs : list Cluster) : list Cluster :=
  Array_sort by_score_desc cs.

Definition analyse (rows : list (jsstring * num)) : option (list Cluster) :=
  match phoneticMap (map mkEntry rows) with
  | Some m => Some (rank (clusters m))
  | None => None
  end.

(** *** Specification-side definitions *)

(** The normalised edit distance of two names. *)
Definition normalised_distance (a b : jsstring) : num :=
  num_div (num_of_nat (LevenshteinDistance a b))
    (num_of_nat (Nat.max (length a) (length b))).

(** One more pair in the running sum of the loops. *)
Definition add_pair (st : DiversityState) (p : jsstring * jsstring)
  : DiversityState :=
  {| totalDiff :=
       num_add (totalDiff st) (normalised_distance (fst p) (snd p));
     comparisons := S (comparisons st) |}.

(** The unordered pairs of a list, by position: [(l_i, l_j)] for [i < j],
    in lexicographic order of [(i, j)]. *)
Fixpoint pairs (A : Type) (l : list A) : list (A * A) :=
  match l with
  | [] => []
  | x :: t => map (pair x) t ++ pairs t
  end.

(** The mean normalised edit distance over the pairs of the first five
    names; 0 when there is no pair. *)
Definition diversity_spec (names : list jsstring) : num :=
  let ps := pairs (firstn 5 names) in
  match ps with
  | [] => Fin 0
  | _ =>
      num_div
        (fold_left num_add
           (map (fun p => normalised_distance (fst p) (snd p)) ps) (Fin 0))
        (num_of_nat (length ps))
  end.

(** The keys of a list in order of first occurrence. *)
Fixpoint first_occurrences (ks : list jsstring) : list jsstring :=
  match ks with
  | [] => []
  | k :: t => k :: filter (fun k' => negb (str_eqb k k')) (first_occurrences t)
  end.

(** The bucket of a key: the entries with that code, in input order. *)
Definition bucket_of (es : list Entry) (k : jsstring) : list Entry :=
  filter (fun e => str_eqb (code_of e) k) es.

(** The entries whose code is one of the keys [ks]. *)
Definition code_in (ks : list jsstring) (e : Entry) : bool :=
  existsb (str_eqb (code_of e)) ks.

(** An entry that shares its code with another entry of the input. *)
Definition colliding (es : list Entry) (e : Entry) : bool :=
  2 <=? length (bucket_of es (code_of e)).

Definition index_spec (es : list Entry) : OMap (list Entry) :=
  tabulate (bucket_of es) (first_occurrences (map code_of es)).

Definition big_enough (bucket : jsstring * list Entry) : bool :=
  2 <=? length (snd bucket).

Definition clusters_spec (m : OMap (list Entry)) : list Cluster :=
  map (fun b => mkCluster (fst b) (snd b)) (filter big_enough m).

(** An entry as the script builds it: its complexity is the score of its
    name. *)
Definition ingested (e : Entry) : Prop :=
  complexity e = calculateComplexity (name e).

(** An entry read from a well-formed line: a name that is not empty and a
    positive integer value. *)
Definition well_formed (e : Entry) : Prop :=
  name e <> [] /\ ingested e
  /\ exists z : Z, (0 < z)%Z /\ value e = num_of_Z z.

End Script.

(** ** The report *)

Section Report.
(** [n.toFixed(digits)] and the conversion of a number to a string in a
    template literal: formatting of the host, not modelled. *)
Variable toFixed : num -> nat -> jsstring.
Variable toStr : num -> jsstring.
Variable LevenshteinDistance : jsstring -> jsstring -> nat.

(** [e.complexity > 0.6] *)
Definition difficult (e : Entry) : bool :=
  num_gtb (complexity e) (Fin (6 # 10)).

Definition difficult_names (cluster : Cluster) : nat :=
  length (filter difficult (entries cluster)).

Definition lowest_value (cluster : Cluster) : num :=
  Math_min (map value (entries cluster)).

Definition highest_value (cluster : Cluster) : num :=
  Math_max (map value (entries cluster)).

(** The diversity computed again for the report, from [cluster.names]. *)
Definition reported_diversity (cluster : Cluster) : num :=
  calculateOrthographicDiversity LevenshteinDistance (names cluster).

Definition report_header (count : nat) : jsstring :=
  lit "Phonetic Confusion Analysis (" ++ toStr (num_of_nat count)
  ++ lit " clusters)" ++ [newline]
  ++ lit "===================================" ++ [newline; newline].

Definition report_block (idx : nat) (cluster : Cluster) : jsstring :=
  lit "Cluster #" ++ toStr (num_of_nat (idx + 1)) ++ lit " (Score: "
  ++ toFixed (confusionScore cluster) 2 ++ lit ")" ++ [newline]
  ++ lit "Phonetic Code: " ++ phoneticCode cluster ++ [newline]
  ++ lit "Avg Value: " ++ toFixed (avgValue cluster) 0 ++ lit " | "
  ++ lit "Avg Complexity: " ++ toFixed (avgComplexity cluster) 2 ++ [newline]
  ++ lit "Names (" ++ toStr (num_of_nat (length (names cluster))) ++ lit "): "
  ++ join (lit ", ") (names cluster) ++ [newline; newline]
  ++ lit "Confusion Factors:" ++ [newline]
  ++ lit "- Group Size: " ++ toStr (num_of_nat (length (names cluster)))
  ++ lit " names" ++ [newline]
  ++ lit "- High Complexity: " ++ toStr (num_of_nat (difficult_names cluster))
  ++ lit " difficult names" ++ [newline]
  ++ lit "- Value Spread: " ++ toStr (lowest_value cluster) ++ lit " to "
  ++ toStr (highest_value cluster) ++ [newline]
  ++ lit "- Orthographic Diversity: "
  ++ toFixed (reported_diversity cluster) 2 ++ [newline; newline].

(** [clusters.forEach((cluster, idx) => ...)] on the sorted clusters. *)
Definition report (cs : list Cluster) : jsstring :=
  fold_left (fun text ic => text ++ report_block (fst ic) (snd ic))
    (combine (seq 0 (length cs)) cs) (report_header (length cs)).

Definition log_message (cs : list Cluster) : jsstring :=
  lit "Analysis complete. Found " ++ toStr (num_of_nat (length cs))
  ++ lit " confusing clusters.".
End Report.

(** The whole script on the text of the data file: the sorted clusters, the
    report written and the message logged. *)
Definition main (jw : jsstring -> jsstring -> num)
    (lev : jsstring -> jsstring -> nat)
    (dm : jsstring -> jsstring * jsstring)
    (toFixed : num -> nat -> jsstring) (toStr : num -> jsstring)
    (data : jsstring) : option (list Cluster * jsstring * jsstring) :=
  match analyse jw lev dm (rows_of_data data) with
  | Some cs => Some (cs, report toFixed toStr lev cs, log_message toStr cs)
  | None => None
  end.

(** ** Concrete inputs *)

Definition example_entry (n : string) (v : Z) : Entry :=
  mkEntry ref_similarity (lit n, num_of_Z v).

(** Two names of value 0. *)
Definition zero_group : list Entry :=
  [example_entry "Ann" 0; example_entry "Anne" 0].

Definition kate_group : list Entry :=
  [example_entry "Katherine" 10; example_entry "Catherine" 7;
   example_entry "Kathryn" 3].

(** Seven names, and the same with the last two exchanged. *)
Definition seven_group : list Entry :=
  [example_entry "Kara" 4; example_entry "Cara" 9; example_entry "Karah" 1;
   example_entry "Carah" 2; example_entry "Kahra" 6; example_entry "Khara" 3;
   example_entry "Carra" 8].

Definition seven_group_swapped : list Entry :=
  [example_entry "Kara" 4; example_entry "Cara" 9; example_entry "Karah" 1;
   example_entry "Carah" 2; example_entry "Kahra" 6; example_entry "Carra" 8;
   example_entry "Khara" 3].

(** Three clusters, the first and the last of equal score. *)
Definition example_clusters : list Cluster :=
  [mkCluster ref_levenshtein (lit "PP|PP")
     [example_entry "Bob" 5; example_entry "Bop" 2];
   mkCluster ref_levenshtein (lit "K0RN|KTRN") kate_group;
   mkCluster ref_levenshtein (lit "TM|TM")
     [example_entry "Tom" 5; example_entry "Tim" 2]].

(** A name with six vowel runs, and one with four characters outside a-z. *)
Definition six_runs : jsstring := lit "abababababab".
Definition four_digits : jsstring := lit "R2D2-7".

(** Rows of a data file: names and values. *)
Definition written_rows : list (jsstring * N) :=
  [(lit "Ann", 3%N); (lit "Zed", 12%N); (lit "Anne", 5%N)].

(** A group with an entry read from a line without a number. *)
Definition unread_entry : Entry :=
  mkEntry ref_similarity (lit "Anne", NaN).

Definition unread_group : list Entry :=
  [example_entry "Ann" 3; unread_entry].

(** Rows of which two have the value 0 and share their code, between two
    other pairs, and the clusters the script builds from them. *)
Definition mixed_rows : list (jsstring * num) :=
  [(lit "Bob", num_of_Z 5); (lit "Ann", num_of_Z 0);
   (lit "Kathryn", num_of_Z 9); (lit "Bop", num_of_Z 5);
   (lit "Anne", num_of_Z 0); (lit "Katherine", num_of_Z 1)].

Definition mixed_clusters : list Cluster :=
  clusters ref_levenshtein
    (index_spec ref_encoder (map (mkEntry ref_similarity) mixed_rows)).

(** A bucket map with one bucket. *)
Definition kate_map : OMap (list Entry) := [(lit "K0RN|KTRN", kate_group)].

(** * Proofs *)

(** ** Numbers *)

Local Open Scope Q_scope.

Lemma Qcompare_eq_compat (p p' q q' : Q) :
  p == p' -> q == q' -> (p ?= q) = (p' ?= q').
Proof. intros Hp Hq. rewrite Hp, Hq. reflexivity. Qed.

Ltac q_cases :=
  repeat match goal with
    | |- context [(?a ?= ?b)%Q] =>
        let H := fresh "Hc" in destruct (Qcompare_spec a b) as [H | H | H]
    | H : context [(?a ?= ?b)%Q] |- _ =>
        let H' := fresh "Hc" in destruct (Qcompare_spec a b) as [H' | H' | H']
    end.

Ltac num_solve :=
  simpl in *; auto; try discriminate; try contradiction; try reflexivity;
  q_cases; simpl in *; auto; try discriminate; try contradiction;
  try reflexivity; try lra.

Lemma num_eq_refl (a : num) : num_eq a a.
Proof. destruct a; num_solve. Qed.

Lemma num_eq_sym (a b : num) : num_eq a b -> num_eq b a.
Proof.
  destruct a, b; simpl; auto. intros H; symmetry; exact H.
Qed.

Lemma num_eq_trans (a b c : num) : num_eq a b -> num_eq b c -> num_eq a c.
Proof.
  destruct a, b, c; simpl; auto; try contradiction.
  intros H1 H2. rewrite H1. exact H2.
Qed.

#[global] Instance num_eq_Equivalence : Equivalence num_eq.
Proof.
  split; [exact num_eq_refl | exact num_eq_sym | exact num_eq_trans].
Qed.

#[global] Instance num_neg_Proper : Proper (num_eq ==> num_eq) num_neg.
Proof. intros a a' Ha. destruct a, a'; num_solve. Qed.

#[global] Instance num_add_Proper :
  Proper (num_eq ==> num_eq ==> num_eq) num_add.
Proof. intros a a' Ha b b' Hb. destruct a, a', b, b'; num_solve. Qed.

#[global] Instance num_sub_Proper :
  Proper (num_eq ==> num_eq ==> num_eq) num_sub.
Proof. intros a a' Ha b b' Hb. unfold num_sub. rewrite Ha, Hb. reflexivity. Qed.

#[global] Instance num_mul_Proper :
  Proper (num_eq ==> num_eq ==> num_eq) num_mul.
Proof.
  intros a a' Ha b b' Hb.
  destruct a, a', b, b'; simpl in *; try contradiction; auto;
    unfold scale_inf;
    try (rewrite (Qcompare_eq_compat Ha (Qeq_refl 0)));
    try (rewrite (Qcompare_eq_compat Hb (Qeq_refl 0)));
    try reflexivity.
  rewrite Ha, Hb. reflexivity.
Qed.

#[global] Instance num_div_Proper :
  Proper (num_eq ==> num_eq ==> num_eq) num_div.
Proof.
  intros a a' Ha b b' Hb.
  destruct a as [p| | |], a' as [p'| | |], b as [q| | |], b' as [q'| | |];
    simpl in *; try contradiction; auto;
    try (rewrite (Qcompare_eq_compat Ha (Qeq_refl 0)));
    try (rewrite (Qcompare_eq_compat Hb (Qeq_refl 0)));
    try reflexivity.
  destruct (q' ?= 0); try (destruct (p' ?= 0); reflexivity);
    simpl; rewrite Ha, Hb; reflexivity.
Qed.

Lemma num_ltb_compat (a a' b b' : num) :
  num_eq a a' -> num_eq b b' -> num_ltb a b = num_ltb a' b'.
Proof.
  intros Ha Hb.
  destruct a, a', b, b'; simpl in *; try contradiction; auto.
  rewrite (Qcompare_eq_compat Ha Hb). reflexivity.
Qed.

#[global] Instance min2_Proper : Proper (num_eq ==> num_eq ==> num_eq) min2.
Proof.
  intros a a' Ha b b' Hb. unfold min2.
  rewrite (@num_ltb_compat b b' a a' Hb Ha).
  destruct a, a', b, b'; simpl in *; try contradiction; auto;
    match goal with |- context [if ?c then _ else _] => destruct c end; auto.
Qed.

#[global] Instance max2_Proper : Proper (num_eq ==> num_eq ==> num_eq) max2.
Proof.
  intros a a' Ha b b' Hb. unfold max2.
  rewrite (@num_ltb_compat a a' b b' Ha Hb).
  destruct a, a', b, b'; simpl in *; try contradiction; auto;
    match goal with |- context [if ?c then _ else _] => destruct c end; auto.
Qed.

Lemma num_add_NaN_r (a : num) : num_add a NaN = NaN.
Proof. destruct a; reflexivity. Qed.

Lemma num_mul_NaN_l (a : num) : num_mul NaN a = NaN.
Proof. reflexivity. Qed.

Lemma num_ltb_Fin (p q : Q) : num_ltb (Fin p) (Fin q) = true <-> p < q.
Proof. simpl. q_cases; split; intros; try discriminate; try lra; auto. Qed.

Lemma num_ltb_Fin_false (p q : Q) : num_ltb (Fin p) (Fin q) = false <-> q <= p.
Proof. simpl. q_cases; split; intros; try discriminate; try lra; auto. Qed.

Lemma min2_Fin (p q : Q) : exists r, min2 (Fin p) (Fin q) = Fin r /\ r == Qmin p q.
Proof.
  unfold min2. destruct (num_ltb (Fin q) (Fin p)) eqn:E.
  - apply num_ltb_Fin in E. exists q. split; auto.
    rewrite Q.min_r; lra.
  - apply num_ltb_Fin_false in E. exists p. split; auto.
    rewrite Q.min_l; lra.
Qed.

Lemma max2_Fin (p q : Q) : exists r, max2 (Fin p) (Fin q) = Fin r /\ r == Qmax p q.
Proof.
  unfold max2. destruct (num_ltb (Fin p) (Fin q)) eqn:E.
  - apply num_ltb_Fin in E. exists q. split; auto.
    rewrite Q.max_r; lra.
  - apply num_ltb_Fin_false in E. exists p. split; auto.
    rewrite Q.max_l; lra.
Qed.

(** Preparation for the linear solver: divisions by a literal become
    products, and injections of integers become opaque. *)
Ltac q_prep :=
  unfold Qdiv in *;
  change (inject_Z 0) with 0 in *;
  change (inject_Z 1) with 1 in *;
  repeat match goal with
    | |- context [Qinv (Qmake ?n ?d)] =>
        let v := eval cbv in (Qinv (Qmake n d)) in
        change (Qinv (Qmake n d)) with v in *
    | H : context [Qinv (Qmake ?n ?d)] |- _ =>
        let v := eval cbv in (Qinv (Qmake n d)) in
        change (Qinv (Qmake n d)) with v in *
    end;
  repeat match goal with
    | |- context [inject_Z ?z] =>
        let x := fresh "x" in set (x := inject_Z z) in *; clearbody x
    | H : context [inject_Z ?z] |- _ =>
        let x := fresh "x" in set (x := inject_Z z) in *; clearbody x
    end.

Lemma num_div_Fin_pos (p q : Q) : 0 < q -> num_div (Fin p) (Fin q) = Fin (p / q).
Proof. intros H. simpl. q_cases; try lra; reflexivity. Qed.

Lemma inject_nat_nonneg (n : nat) : 0 <= inject_Z (Z.of_nat n).
Proof. unfold Qle. simpl. lia. Qed.

Lemma inject_nat_le (n m : nat) :
  (n <= m)%nat -> inject_Z (Z.of_nat n) <= inject_Z (Z.of_nat m).
Proof. intros H. rewrite <- Zle_Qle. lia. Qed.

Lemma inject_nat_lt (n m : nat) :
  (n < m)%nat -> inject_Z (Z.of_nat n) < inject_Z (Z.of_nat m).
Proof. intros H. rewrite <- Zlt_Qlt. lia. Qed.

Lemma min2_one_in01 (q : Q) : 0 <= q -> in01 (min2 (Fin 1) (Fin q)).
Proof.
  intros H. destruct (min2_Fin 1 q) as (r & -> & Hr). simpl.
  rewrite Hr. split.
  - apply Q.min_glb; lra.
  - apply Q.le_min_l.
Qed.

(** ** [calculateComplexity] *)

Section ComplexityProofs.
Variable jw : jsstring -> jsstring -> num.

Lemma length_factor_in01 (s : jsstring) :
  in01 (ComplexityFactors.length (complexityFactors jw s)).
Proof.
  cbn [complexityFactors ComplexityFactors.length]. unfold num_of_nat.
  rewrite num_div_Fin_pos by lra. apply min2_one_in01.
  pose proof (inject_nat_nonneg (length s)).
  q_prep. lra.
Qed.

Lemma syllable_factor_value (s : jsstring) :
  ComplexityFactors.syllableCount (complexityFactors jw s)
  = Fin (inject_Z (Z.of_nat (length (or_empty (match_vowels s)))) / 5).
Proof.
  cbn [complexityFactors ComplexityFactors.syllableCount]. unfold num_of_nat.
  apply num_div_Fin_pos. lra.
Qed.

Lemma non_standard_factor_value (s : jsstring) :
  ComplexityFactors.nonStandardChars (complexityFactors jw s)
  = Fin (inject_Z (Z.of_nat
           (length (filter (fun c => negb (test_a_z (toLowerCase c)))
                      (spread s)))) / 3).
Proof.
  cbn [complexityFactors ComplexityFactors.nonStandardChars].
  unfold num_of_nat. apply num_div_Fin_pos. lra.
Qed.

Lemma ortho_factor_in01 (s : jsstring) :
  in01 (jw s (lit "standard")) ->
  in01 (ComplexityFactors.orthoNeighbors (complexityFactors jw s)).
Proof.
  cbn [complexityFactors ComplexityFactors.orthoNeighbors].
  destruct (jw s (lit "standard")); simpl; try contradiction. lra.
Qed.

Lemma calculateComplexity_unfold (s : jsstring) :
  calculateComplexity jw s
  = let f := complexityFactors jw s in
    num_add
      (num_add
         (num_add
            (num_add (num_add (Fin 0) (ComplexityFactors.length f))
               (ComplexityFactors.syllableCount f))
            (ComplexityFactors.nonStandardChars f))
         (ComplexityFactors.orthoNeighbors f))
      (ComplexityFactors.phoneticDensity f).
Proof. reflexivity. Qed.

Lemma calculateComplexity_nonneg (s : jsstring) :
  in01 (jw s (lit "standard")) -> nonneg (calculateComplexity jw s).
Proof.
  intros Hjw. rewrite calculateComplexity_unfold. cbv zeta.
  pose proof (length_factor_in01 s) as Hl.
  pose proof (ortho_factor_in01 s Hjw) as Ho.
  rewrite syllable_factor_value, non_standard_factor_value.
  destruct (ComplexityFactors.length (complexityFactors jw s));
    try contradiction.
  destruct (ComplexityFactors.orthoNeighbors (complexityFactors jw s));
    try contradiction.
  cbn [complexityFactors ComplexityFactors.phoneticDensity].
  simpl in *.
  pose proof (inject_nat_nonneg (length (or_empty (match_vowels s)))).
  pose proof (inject_nat_nonneg
    (length (filter (fun c => negb (test_a_z (toLowerCase c))) (spread s)))).
  q_prep. lra.
Qed.

(** C3: the complexity of a name is never negative (for a similarity in
    the unit interval), and on the empty string the length, syllable and
    non-standard factors and the reserved phonetic density are all 0, so
    that the complexity is [1 - JaroWinkler("", "standard")]. *)
Theorem complexity_nonneg_and_empty :
  (forall a b, in01 (jw a b)) ->
  (forall s, nonneg (calculateComplexity jw s))
  /\ num_eq (calculateComplexity jw [])
       (num_sub (Fin 1) (jw [] (lit "standard")))
  /\ num_eq (ComplexityFactors.length (complexityFactors jw [])) (Fin 0)
  /\ num_eq (ComplexityFactors.syllableCount (complexityFactors jw []))
       (Fin 0)
  /\ num_eq (ComplexityFactors.nonStandardChars (complexityFactors jw []))
       (Fin 0)
  /\ ComplexityFactors.phoneticDensity (complexityFactors jw []) = Fin 0.
Proof.
  intros Hjw. split; [| split; [| repeat split]].
  - intros s. apply calculateComplexity_nonneg. apply Hjw.
  - rewrite calculateComplexity_unfold.
    cbn -[lit]. destruct (jw [] (lit "standard")); simpl; auto.
    change (inject_Z 0) with 0. field.
Qed.
End ComplexityProofs.

Lemma ratio_le_one (n d : nat) :
  (0 < d)%nat ->
  (inject_Z (Z.of_nat n) / inject_Z (Z.of_nat d) <= 1 <-> (n <= d)%nat).
Proof.
  intros Hd.
  assert (Hd' : 0 < inject_Z (Z.of_nat d)).
  { change 0 with (inject_Z (Z.of_nat 0)). apply inject_nat_lt. exact Hd. }
  split.
  - intros H. destruct (le_lt_dec n d) as [Hle | Hlt]; auto. exfalso.
    assert (1 < inject_Z (Z.of_nat n) / inject_Z (Z.of_nat d)).
    { apply Qlt_shift_div_l; auto. rewrite Qmult_1_l.
      apply inject_nat_lt. exact Hlt. }
    lra.
  - intros H. apply Qle_shift_div_r; auto.
    rewrite Qmult_1_l. apply inject_nat_le. exact H.
Qed.

(** C9, as the script has it: the length factor and the spelling factor lie
    in the unit interval for every name (the latter for a similarity in the
    unit interval); the syllable factor is the number of vowel runs over 5,
    never negative, and at most 1 exactly when the name has at most 5 vowel
    runs; the non-standard factor is the number of characters outside a-z
    over 3, never negative, and at most 1 exactly when there are at most 3
    of them. *)
Theorem complexity_factor_ranges (jw : jsstring -> jsstring -> num) :
  (forall a b, in01 (jw a b)) ->
  forall s : jsstring,
    let f := complexityFactors jw s in
    let runs := length (or_empty (match_vowels s)) in
    let odd := length (filter (fun c => negb (test_a_z (toLowerCase c)))
                         (spread s)) in
    in01 (ComplexityFactors.length f)
    /\ in01 (ComplexityFactors.orthoNeighbors f)
    /\ (exists q, ComplexityFactors.syllableCount f = Fin q
                  /\ q == inject_Z (Z.of_nat runs) / 5
                  /\ 0 <= q /\ (q <= 1 <-> (runs <= 5)%nat))
    /\ (exists q, ComplexityFactors.nonStandardChars f = Fin q
                  /\ q == inject_Z (Z.of_nat odd) / 3
                  /\ 0 <= q /\ (q <= 1 <-> (odd <= 3)%nat)).
Proof.
  intros Hjw s f runs odd. split; [| split; [| split]].
  - apply length_factor_in01.
  - apply ortho_factor_in01. apply Hjw.
  - exists (inject_Z (Z.of_nat runs) / 5). split; [| split; [| split]].
    + apply syllable_factor_value.
    + reflexivity.
    + pose proof (inject_nat_nonneg runs). q_prep. lra.
    + apply (ratio_le_one runs (d := 5)). lia.
  - exists (inject_Z (Z.of_nat odd) / 3). split; [| split; [| split]].
    + apply non_standard_factor_value.
    + reflexivity.
    + pose proof (inject_nat_nonneg odd). q_prep. lra.
    + apply (ratio_le_one odd (d := 3)). lia.
Qed.

(** ** [calculateOrthographicDiversity] *)

Lemma max2_of_nat (n m : nat) :
  max2 (num_of_nat n) (num_of_nat m) = num_of_nat (Nat.max n m).
Proof.
  unfold max2, num_of_nat.
  destruct (num_ltb (Fin (inject_Z (Z.of_nat n))) (Fin (inject_Z (Z.of_nat m))))
    eqn:E.
  - apply num_ltb_Fin in E. rewrite <- Zlt_Qlt in E.
    rewrite Nat.max_r by lia. reflexivity.
  - apply num_ltb_Fin_false in E. rewrite <- Zle_Qle in E.
    rewrite Nat.max_l by lia. reflexivity.
Qed.

Lemma fold_left_ext_eq (S A : Type) (f g : S -> A -> S) :
  (forall st a, f st a = g st a) ->
  forall l st, fold_left f l st = fold_left g l st.
Proof.
  intros H l. induction l as [| a l IH]; intros st; simpl; [reflexivity |].
  rewrite H. apply IH.
Qed.

(** A loop over the indices of a suffix reads the suffix in order. *)
Lemma fold_seq_nth (S A : Type) (g : S -> A -> S) (L : list A) (d : A) :
  forall (l pre : list A) (st : S),
    L = pre ++ l ->
    fold_left (fun st j => g st (nth j L d)) (seq (length pre) (length l)) st
    = fold_left g l st.
Proof.
  induction l as [| a l IH]; intros pre st HL; simpl; [reflexivity |].
  assert (Ha : nth (length pre) L d = a).
  { rewrite HL. apply nth_middle. }
  rewrite Ha.
  specialize (IH (pre ++ [a]) (g st a)).
  rewrite length_app in IH. simpl in IH.
  rewrite Nat.add_1_r in IH. apply IH.
  rewrite <- app_assoc. exact HL.
Qed.

Section DiversityProofs.
Variable lev : jsstring -> jsstring -> nat.

Lemma diversity_inner_add_pair (samples : list jsstring) (i j : nat)
    (st : DiversityState) :
  diversity_inner lev samples i st j
  = add_pair lev st (nth i samples [], nth j samples []).
Proof.
  unfold diversity_inner, add_pair, normalised_distance.
  cbv zeta. cbn [fst snd]. rewrite max2_of_nat. reflexivity.
Qed.

Lemma diversity_outer_tail (pre t : list jsstring) (x : jsstring)
    (st : DiversityState) :
  diversity_outer lev (pre ++ x :: t) st (length pre)
  = fold_left (add_pair lev) (map (pair x) t) st.
Proof.
  unfold diversity_outer.
  replace (length (pre ++ x :: t) - (length pre + 1))%nat with (length t)
    by (rewrite length_app; simpl; lia).
  replace (length pre + 1)%nat with (length (pre ++ [x]))
    by (rewrite length_app; reflexivity).
  rewrite (@fold_left_ext_eq _ _ _
             (fun st j => add_pair lev st (x, nth j (pre ++ x :: t) []))).
  - rewrite (@fold_seq_nth _ _ (fun st y => add_pair lev st (x, y))
               (pre ++ x :: t) [] t (pre ++ [x])).
    + clear. revert st. induction t as [| y t IH]; intros st; simpl; auto.
    + rewrite <- app_assoc. reflexivity.
  - intros st' j. rewrite diversity_inner_add_pair.
    rewrite nth_middle. reflexivity.
Qed.

Lemma diversity_outer_pairs (samples : list jsstring) :
  forall (l pre : list jsstring) (st : DiversityState),
    samples = pre ++ l ->
    fold_left (diversity_outer lev samples) (seq (length pre) (length l)) st
    = fold_left (add_pair lev) (pairs l) st.
Proof.
  induction l as [| x t IH]; intros pre st Hs; simpl; [reflexivity |].
  rewrite fold_left_app. rewrite Hs at 2. rewrite diversity_outer_tail.
  specialize (IH (pre ++ [x])). rewrite length_app in IH. simpl in IH.
  rewrite Nat.add_1_r in IH. apply IH.
  rewrite <- app_assoc. exact Hs.
Qed.

Lemma fold_add_pair (ps : list (jsstring * jsstring)) :
  forall st,
    fold_left (add_pair lev) ps st
    = {| totalDiff :=
           fold_left num_add
             (map (fun p => normalised_distance lev (fst p) (snd p)) ps)
             (totalDiff st);
         comparisons := length ps + comparisons st |}.
Proof.
  induction ps as [| p ps IH]; intros st; simpl.
  - destruct st; reflexivity.
  - rewrite IH. simpl. f_equal. lia.
Qed.

Lemma diversity_loops_pairs (samples : list jsstring) :
  diversity_loops lev samples
  = {| totalDiff :=
         fold_left num_add
           (map (fun p => normalised_distance lev (fst p) (snd p))
              (pairs samples))
           (Fin 0);
       comparisons := length (pairs samples) |}.
Proof.
  unfold diversity_loops.
  rewrite (diversity_outer_pairs (samples := samples) samples []) by reflexivity.
  rewrite fold_add_pair. simpl. f_equal. lia.
Qed.

(** The loops compute the mean over the pairs of the first five names. *)
Lemma diversity_is_spec (names : list jsstring) :
  calculateOrthographicDiversity lev names = diversity_spec lev names.
Proof.
  unfold calculateOrthographicDiversity, diversity_spec. cbv zeta.
  rewrite diversity_loops_pairs. cbn [totalDiff comparisons].
  generalize (pairs (firstn 5 names)). intros ps.
  destruct ps; reflexivity.
Qed.
End DiversityProofs.

Lemma num_add_0_l (x : num) : num_eq (num_add (Fin 0) x) x.
Proof. destruct x; simpl; auto. lra. Qed.

Lemma num_div_1_r (x : num) : num_eq (num_div x (Fin 1)) x.
Proof. destruct x; simpl; auto. field. Qed.

(** [pairs] lists every pair of positions [i < j] once. *)
Lemma pairs_length (A : Type) (l : list A) :
  (2 * length (pairs l) = length l * (length l - 1))%nat.
Proof.
  induction l as [| x t IH]; simpl; [reflexivity |].
  rewrite length_app, length_map. rewrite Nat.sub_0_r. nia.
Qed.

Lemma pairs_In (A : Type) (l : list A) (x y : A) :
  In (x, y) (pairs l) <->
  exists i j, (i < j)%nat /\ nth_error l i = Some x /\ nth_error l j = Some y.
Proof.
  induction l as [| a t IH]; simpl.
  - split; [tauto |]. intros (i & j & _ & Hi & _). destruct i; discriminate.
  - rewrite in_app_iff, in_map_iff, IH. split.
    + intros [(y' & Heq & Hin) | (i & j & Hij & Hi & Hj)].
      * inversion Heq; subst. apply In_nth_error in Hin as (j & Hj).
        exists 0%nat, (S j). repeat split; auto. lia.
      * exists (S i), (S j). repeat split; auto. lia.
    + intros (i & j & Hij & Hi & Hj). destruct j as [| j]; [lia |].
      simpl in Hj. destruct i as [| i]; simpl in Hi.
      * inversion Hi; subst. left. exists y. split; auto.
        eapply nth_error_In; eauto.
      * right. exists i, j. repeat split; auto. lia.
Qed.

(** C4: the diversity of no name and of one name is 0; of two names it is
    their edit distance over the longer length; in general it depends only
    on the first five names and is the mean normalised edit distance over
    their pairs, taken by position. *)
Theorem diversity_cases (lev : jsstring -> jsstring -> nat) :
  calculateOrthographicDiversity lev [] = Fin 0
  /\ (forall x, calculateOrthographicDiversity lev [x] = Fin 0)
  /\ (forall a b,
         num_eq (calculateOrthographicDiversity lev [a; b])
           (num_div (num_of_nat (lev a b))
              (num_of_nat (Nat.max (length a) (length b)))))
  /\ (forall names,
         calculateOrthographicDiversity lev names
         = calculateOrthographicDiversity lev (firstn 5 names))
  /\ (forall names,
         calculateOrthographicDiversity lev names = diversity_spec lev names).
Proof.
  split; [reflexivity |]. split; [reflexivity |]. split; [| split].
  - intros a b. rewrite diversity_is_spec. unfold diversity_spec. cbn.
    fold (normalised_distance lev a b).
    change (Fin (inject_Z 1)) with (Fin 1).
    rewrite num_div_1_r. apply num_add_0_l.
  - intros names. rewrite !diversity_is_spec. unfold diversity_spec.
    rewrite firstn_firstn. reflexivity.
  - apply diversity_is_spec.
Qed.

(** ** [Math.min] and [Math.max] over a list *)

Lemma fold_min2_zero (vs : list num) :
  Forall (fun v => num_eq v (Fin 0)) vs ->
  forall p, p == 0 -> exists q, fold_left min2 vs (Fin p) = Fin q /\ q == 0.
Proof.
  induction 1 as [| v vs Hv _ IH]; intros p Hp; cbn [fold_left].
  - exists p. split; auto.
  - destruct v as [q | | |]; simpl in Hv; try contradiction.
    destruct (min2_Fin p q) as (r & -> & Hr). apply IH.
    rewrite Hr, Hp, Hv. reflexivity.
Qed.

Lemma fold_max2_zero (vs : list num) :
  Forall (fun v => num_eq v (Fin 0)) vs ->
  forall p, p == 0 -> exists q, fold_left max2 vs (Fin p) = Fin q /\ q == 0.
Proof.
  induction 1 as [| v vs Hv _ IH]; intros p Hp; cbn [fold_left].
  - exists p. split; auto.
  - destruct v as [q | | |]; simpl in Hv; try contradiction.
    destruct (max2_Fin p q) as (r & -> & Hr). apply IH.
    rewrite Hr, Hp, Hv. reflexivity.
Qed.

Lemma Math_min_zero (vs : list num) :
  vs <> [] -> Forall (fun v => num_eq v (Fin 0)) vs ->
  exists q, Math_min vs = Fin q /\ q == 0.
Proof.
  intros Hne H. destruct H as [| v vs Hv H]; [congruence |].
  destruct v as [q | | |]; simpl in Hv; try contradiction.
  unfold Math_min. cbn. apply fold_min2_zero; assumption.
Qed.

Lemma Math_max_zero (vs : list num) :
  vs <> [] -> Forall (fun v => num_eq v (Fin 0)) vs ->
  exists q, Math_max vs = Fin q /\ q == 0.
Proof.
  intros Hne H. destruct H as [| v vs Hv H]; [congruence |].
  destruct v as [q | | |]; simpl in Hv; try contradiction.
  unfold Math_max. cbn. apply fold_max2_zero; assumption.
Qed.

Lemma num_div_zero_zero (p q : Q) :
  p == 0 -> q == 0 -> num_div (Fin p) (Fin q) = NaN.
Proof.
  intros Hp Hq. simpl.
  rewrite (Qcompare_eq_compat Hq (Qeq_refl 0)).
  rewrite (Qcompare_eq_compat Hp (Qeq_refl 0)). reflexivity.
Qed.

(** ** [calculateConfusionScore] *)

(** C1 (what the script does): on a group of two or more entries whose
    values are all 0 the value spread is [1 - 0/0], and the score returned
    is NaN; no fallback is applied. *)
Theorem confusion_score_all_zero_NaN (lev : jsstring -> jsstring -> nat)
    (group : list Entry) :
  (2 <= length group)%nat ->
  Forall (fun e => num_eq (value e) (Fin 0)) group ->
  ConfusionFactors.valueSpread (confusionFactors lev group) = NaN
  /\ calculateConfusionScore lev group = NaN.
Proof.
  intros Hlen Hz.
  assert (Hv : Forall (fun v => num_eq v (Fin 0)) (map value group)).
  { apply Forall_map. exact Hz. }
  assert (Hne : map value group <> []).
  { destruct group; simpl in *; [lia | discriminate]. }
  destruct (Math_min_zero Hne Hv) as (p & Hp & Hp0).
  destruct (Math_max_zero Hne Hv) as (q & Hq & Hq0).
  assert (Hs : ConfusionFactors.valueSpread (confusionFactors lev group) = NaN).
  { cbn [confusionFactors ConfusionFactors.valueSpread].
    rewrite Hp, Hq, (num_div_zero_zero Hp0 Hq0). reflexivity. }
  split; [exact Hs |].
  unfold calculateConfusionScore. cbv zeta. rewrite Hs.
  rewrite num_mul_NaN_l, num_add_NaN_r. reflexivity.
Qed.

Lemma max2_Fin_cases (p q : Q) :
  (max2 (Fin p) (Fin q) = Fin q /\ p < q)
  \/ (max2 (Fin p) (Fin q) = Fin p /\ q <= p).
Proof.
  unfold max2. destruct (num_ltb (Fin p) (Fin q)) eqn:E.
  - left. split; auto. apply num_ltb_Fin. exact E.
  - right. split; auto. apply num_ltb_Fin_false. exact E.
Qed.

Lemma min2_Fin_cases (p q : Q) :
  (min2 (Fin p) (Fin q) = Fin q /\ q < p)
  \/ (min2 (Fin p) (Fin q) = Fin p /\ p <= q).
Proof.
  unfold min2. destruct (num_ltb (Fin q) (Fin p)) eqn:E.
  - left. split; auto. apply num_ltb_Fin. exact E.
  - right. split; auto. apply num_ltb_Fin_false. exact E.
Qed.

Lemma fold_max2_Fin (vs : list num) :
  Forall (fun v => exists q, v = Fin q) vs ->
  forall p, exists m,
    fold_left max2 vs (Fin p) = Fin m /\ p <= m
    /\ Forall (fun v => num_le v (Fin m)) vs
    /\ (m = p \/ In (Fin m) vs).
Proof.
  induction 1 as [| v vs (q & ->) _ IH]; intros p; cbn [fold_left].
  - exists p. repeat split; auto. lra.
  - destruct (max2_Fin_cases p q) as [(-> & Hlt) | (-> & Hle)].
    + destruct (IH q) as (m & Hm & Hqm & Hall & Hin).
      exists m. split; [exact Hm |]. split; [lra |]. split.
      * constructor; auto.
      * right. destruct Hin as [-> | Hin]; [left | right]; auto.
    + destruct (IH p) as (m & Hm & Hpm & Hall & Hin).
      exists m. split; [exact Hm |]. split; [lra |]. split.
      * constructor; auto. simpl. lra.
      * destruct Hin as [-> | Hin]; [left | right; right]; auto.
Qed.

Lemma fold_min2_Fin (vs : list num) :
  Forall (fun v => exists q, v = Fin q) vs ->
  forall p, exists m,
    fold_left min2 vs (Fin p) = Fin m /\ m <= p
    /\ Forall (fun v => num_le (Fin m) v) vs
    /\ (m = p \/ In (Fin m) vs).
Proof.
  induction 1 as [| v vs (q & ->) _ IH]; intros p; cbn [fold_left].
  - exists p. repeat split; auto. lra.
  - destruct (min2_Fin_cases p q) as [(-> & Hlt) | (-> & Hle)].
    + destruct (IH q) as (m & Hm & Hqm & Hall & Hin).
      exists m. split; [exact Hm |]. split; [lra |]. split.
      * constructor; auto.
      * right. destruct Hin as [-> | Hin]; [left | right]; auto.
    + destruct (IH p) as (m & Hm & Hpm & Hall & Hin).
      exists m. split; [exact Hm |]. split; [lra |]. split.
      * constructor; auto. simpl. lra.
      * destruct Hin as [-> | Hin]; [left | right; right]; auto.
Qed.

(** On rationals, [Math.max] returns a greatest element of the list. *)
Lemma Math_max_Fin (vs : list num) :
  vs <> [] -> Forall (fun v => exists q, v = Fin q) vs ->
  exists m, Math_max vs = Fin m /\ In (Fin m) vs
            /\ Forall (fun v => num_le v (Fin m)) vs.
Proof.
  intros Hne H. destruct H as [| v vs (q & ->) H]; [congruence |].
  unfold Math_max. cbn.
  destruct (fold_max2_Fin H q) as (m & Hm & Hqm & Hall & Hin).
  exists m. split; [exact Hm |]. split.
  - destruct Hin as [-> | Hin]; [left | right]; auto.
  - constructor; auto.
Qed.

(** On rationals, [Math.min] returns a least element of the list. *)
Lemma Math_min_Fin (vs : list num) :
  vs <> [] -> Forall (fun v => exists q, v = Fin q) vs ->
  exists m, Math_min vs = Fin m /\ In (Fin m) vs
            /\ Forall (fun v => num_le (Fin m) v) vs.
Proof.
  intros Hne H. destruct H as [| v vs (q & ->) H]; [congruence |].
  unfold Math_min. cbn.
  destruct (fold_min2_Fin H q) as (m & Hm & Hqm & Hall & Hin).
  exists m. split; [exact Hm |]. split.
  - destruct Hin as [-> | Hin]; [left | right]; auto.
  - constructor; auto.
Qed.

Lemma fold_add_in01 (xs : list num) :
  Forall in01 xs ->
  forall a, exists s,
    fold_left num_add xs (Fin a) = Fin s
    /\ a <= s <= a + inject_Z (Z.of_nat (length xs)).
Proof.
  induction 1 as [| x xs Hx _ IH]; intros a; cbn [fold_left].
  - exists a. split; auto. change (inject_Z (Z.of_nat (length (@nil num)))) with 0.
    lra.
  - destruct x as [q | | |]; simpl in Hx; try contradiction.
    destruct (IH (a + q)) as (s & Hs & Hb). exists s. split; [exact Hs |].
    cbn [length]. rewrite Nat2Z.inj_succ. unfold Z.succ. rewrite inject_Z_plus.
    q_prep. lra.
Qed.

Lemma ratio_in01 (s k : Q) : 0 < k -> 0 <= s <= k -> 0 <= s / k <= 1.
Proof.
  intros Hk Hs. split.
  - apply Qle_shift_div_l; lra.
  - apply Qle_shift_div_r; lra.
Qed.

Lemma pairs_In_both (A : Type) (l : list A) (x y : A) :
  In (x, y) (pairs l) -> In x l /\ In y l.
Proof.
  intros H. apply pairs_In in H as (i & j & _ & Hi & Hj).
  split; eapply nth_error_In; eauto.
Qed.

Lemma In_firstn (A : Type) (n : nat) (l : list A) (x : A) :
  In x (firstn n l) -> In x l.
Proof.
  intros H. rewrite <- (firstn_skipn n l). apply in_or_app. left. exact H.
Qed.

Section ScoreProofs.
Variable jw : jsstring -> jsstring -> num.
Variable lev : jsstring -> jsstring -> nat.

Hypothesis jw_range : forall a b, in01 (jw a b).
Hypothesis lev_bound :
  forall a b, (lev a b <= Nat.max (length a) (length b))%nat.

Lemma normalised_distance_in01 (a b : jsstring) :
  a <> [] -> in01 (normalised_distance lev a b).
Proof using lev_bound.
  intros Ha. unfold normalised_distance, num_of_nat.
  assert (Hpos : (0 < Nat.max (length a) (length b))%nat).
  { destruct a; [congruence | cbn [length]; lia]. }
  rewrite num_div_Fin_pos.
  - simpl. split.
    + apply Qle_shift_div_l.
      * change 0 with (inject_Z (Z.of_nat 0)). apply inject_nat_lt. exact Hpos.
      * rewrite Qmult_0_l. apply inject_nat_nonneg.
    + apply ratio_le_one; auto.
  - change 0 with (inject_Z (Z.of_nat 0)). apply inject_nat_lt. exact Hpos.
Qed.

Lemma diversity_in01 (names : list jsstring) :
  Forall (fun n => n <> []) names ->
  in01 (calculateOrthographicDiversity lev names).
Proof using lev_bound.
  intros Hne. rewrite diversity_is_spec. unfold diversity_spec. cbv zeta.
  assert (Hps : Forall in01
                  (map (fun p => normalised_distance lev (fst p) (snd p))
                     (pairs (firstn 5 names)))).
  { apply Forall_map. apply Forall_forall. intros (x, y) Hin.
    apply pairs_In_both in Hin as (Hx & _). cbn [fst snd].
    apply normalised_distance_in01.
    rewrite Forall_forall in Hne. apply Hne.
    apply (In_firstn 5 names). exact Hx. }
  revert Hps. generalize (pairs (firstn 5 names)). intros ps Hps.
  destruct ps as [| p ps]; [simpl; lra |].
  destruct (fold_add_in01 Hps 0) as (s & -> & Hs).
  rewrite length_map in Hs. unfold num_of_nat.
  assert (Hk : 0 < inject_Z (Z.of_nat (length (p :: ps)))).
  { change 0 with (inject_Z (Z.of_nat 0)). apply inject_nat_lt. simpl. lia. }
  rewrite num_div_Fin_pos by exact Hk. cbn [in01].
  apply ratio_in01; [exact Hk | lra].
Qed.

Lemma complexities_nonneg (group : list Entry) :
  Forall (ingested jw) group ->
  Forall nonneg (map complexity group).
Proof using jw_range.
  intros H. apply Forall_map. apply Forall_impl with (2 := H).
  intros e He. unfold ingested in He. rewrite He.
  apply calculateComplexity_nonneg. apply jw_range.
Qed.

Lemma nonneg_is_Fin (vs : list num) :
  Forall nonneg vs -> Forall (fun v => exists q, v = Fin q) vs.
Proof.
  apply Forall_impl. intros [q | | |]; simpl; try contradiction.
  intros _. exists q. reflexivity.
Qed.

Lemma values_nonneg (group : list Entry) :
  Forall (fun e => nonneg_int (value e)) group ->
  Forall nonneg (map value group).
Proof.
  intros H. apply Forall_map. apply Forall_impl with (2 := H).
  intros e (z & Hz & ->). simpl.
  change 0 with (inject_Z 0). rewrite <- Zle_Qle. exact Hz.
Qed.

(** C2: on a group of two or more entries built by the script, with
    non-empty names and non-negative integer values that are not all 0, the
    score is
    [min(1, count/5)*0.3 + min(1, c)*0.4 + (1 - lo/hi)*0.2 + d*0.1]
    computed with the operations of the language, where [c] is the greatest
    complexity of the group, [lo] and [hi] are its least and greatest value
    and [d] is the mean normalised edit distance over the pairs of the first
    five names; every factor is a number (none is NaN or infinite), and the
    score lies in the unit interval. *)
Theorem confusion_score_formula (group : list Entry) :
  (2 <= length group)%nat ->
  Forall (fun e => name e <> []) group ->
  Forall (fun e => nonneg_int (value e)) group ->
  Forall (ingested jw) group ->
  num_ltb (Fin 0) (Math_max (map value group)) = true ->
  exists c lo hi : Q,
    (Math_max (map complexity group) = Fin c
     /\ In (Fin c) (map complexity group)
     /\ Forall (fun x => num_le x (Fin c)) (map complexity group))
    /\ (Math_min (map value group) = Fin lo
        /\ In (Fin lo) (map value group)
        /\ Forall (fun x => num_le (Fin lo) x) (map value group))
    /\ (Math_max (map value group) = Fin hi
        /\ In (Fin hi) (map value group)
        /\ Forall (fun x => num_le x (Fin hi)) (map value group))
    /\ 0 <= lo <= hi /\ 0 < hi
    /\ calculateOrthographicDiversity lev (map name group)
       = diversity_spec lev (map name group)
    /\ in01 (diversity_spec lev (map name group))
    /\ calculateConfusionScore lev group
       = num_add
           (num_add
              (num_add
                 (num_mul
                    (min2 (Fin 1)
                       (num_div (num_of_nat (length group)) (Fin 5)))
                    (Fin (3 # 10)))
                 (num_mul (min2 (Fin 1) (Fin c)) (Fin (4 # 10))))
              (num_mul (num_sub (Fin 1) (num_div (Fin lo) (Fin hi)))
                 (Fin (2 # 10))))
           (num_mul (diversity_spec lev (map name group)) (Fin (1 # 10)))
    /\ in01 (calculateConfusionScore lev group).
Proof using jw_range lev_bound.
  intros Hlen Hnames Hvals Hing Hpos.
  assert (Hne : forall (B : Type) (f : Entry -> B), map f group <> []).
  { intros B f. destruct group; simpl in *; [lia | discriminate]. }
  (* the greatest complexity *)
  pose proof (complexities_nonneg Hing) as Hc.
  destruct (Math_max_Fin (Hne _ complexity) (nonneg_is_Fin Hc))
    as (c & Ec & Hcin & Hcall).
  assert (Hc0 : 0 <= c).
  { rewrite Forall_forall in Hc. apply (Hc _ Hcin). }
  (* the least and the greatest value *)
  pose proof (values_nonneg Hvals) as Hv.
  destruct (Math_min_Fin (Hne _ value) (nonneg_is_Fin Hv))
    as (lo & Elo & Hloin & Hloall).
  destruct (Math_max_Fin (Hne _ value) (nonneg_is_Fin Hv))
    as (hi & Ehi & Hhiin & Hhiall).
  assert (Hlo0 : 0 <= lo).
  { rewrite Forall_forall in Hv. apply (Hv _ Hloin). }
  assert (Hlohi : lo <= hi).
  { rewrite Forall_forall in Hloall. apply (Hloall _ Hhiin). }
  assert (Hhi0 : 0 < hi).
  { rewrite Ehi in Hpos. apply num_ltb_Fin. exact Hpos. }
  (* the diversity *)
  pose proof (diversity_is_spec lev (map name group)) as Espec.
  assert (Hd : in01 (diversity_spec lev (map name group))).
  { rewrite <- Espec. apply diversity_in01. apply Forall_map. exact Hnames. }
  (* the weighted sum *)
  assert (Hscore :
    calculateConfusionScore lev group
    = num_add
        (num_add
           (num_add
              (num_mul
                 (min2 (Fin 1) (num_div (num_of_nat (length group)) (Fin 5)))
                 (Fin (3 # 10)))
              (num_mul (min2 (Fin 1) (Fin c)) (Fin (4 # 10))))
           (num_mul (num_sub (Fin 1) (num_div (Fin lo) (Fin hi)))
              (Fin (2 # 10))))
        (num_mul (diversity_spec lev (map name group)) (Fin (1 # 10)))).
  { unfold calculateConfusionScore. cbv zeta.
    cbn [confusionFactors ConfusionFactors.sizePenalty
           ConfusionFactors.complexity ConfusionFactors.valueSpread
           ConfusionFactors.orthoDiversity].
    rewrite Ec, Elo, Ehi, Espec, length_map. reflexivity. }
  exists c, lo, hi.
  split; [auto |]. split; [auto |]. split; [auto |].
  split; [auto |]. split; [exact Hhi0 |]. split; [exact Espec |].
  split; [exact Hd |]. split; [exact Hscore |].
  rewrite Hscore.
  destruct (diversity_spec lev (map name group)) as [d | | |];
    cbn [in01] in Hd; try contradiction.
  unfold num_of_nat.
  rewrite (num_div_Fin_pos _ (q := 5)) by lra.
  rewrite (num_div_Fin_pos _ Hhi0).
  destruct (min2_Fin 1 (inject_Z (Z.of_nat (length group)) / 5))
    as (r1 & -> & Hr1).
  destruct (min2_Fin 1 c) as (r2 & -> & Hr2).
  cbn [num_mul num_add num_sub num_neg in01].
  assert (B1 : 0 <= r1 <= 1).
  { rewrite Hr1. split; [apply Q.min_glb; [lra |] | apply Q.le_min_l].
    pose proof (inject_nat_nonneg (length group)). q_prep. lra. }
  assert (B2 : 0 <= r2 <= 1).
  { rewrite Hr2. split; [apply Q.min_glb; lra | apply Q.le_min_l]. }
  pose proof (ratio_in01 Hhi0 (conj Hlo0 Hlohi)) as B3.
  revert B3. generalize (lo / hi). intros t B3. lra.
Qed.
End ScoreProofs.

(** ** Reordering a group *)

Ltac num_cases := repeat (simpl in *; q_cases); simpl in *.

Lemma max2_right_comm (a x y : num) :
  num_eq (max2 (max2 a x) y) (max2 (max2 a y) x).
Proof.
  unfold max2.
  destruct a, x, y; num_cases; auto; try lra; try reflexivity.
Qed.

Lemma min2_right_comm (a x y : num) :
  num_eq (min2 (min2 a x) y) (min2 (min2 a y) x).
Proof.
  unfold min2.
  destruct a, x, y; num_cases; auto; try lra; try reflexivity.
Qed.

Section FoldPermutation.
Variable op : num -> num -> num.
Hypothesis op_Proper : Proper (num_eq ==> num_eq ==> num_eq) op.
Hypothesis op_right_comm :
  forall a x y, num_eq (op (op a x) y) (op (op a y) x).

Lemma fold_left_num_eq (l : list num) :
  forall a a', num_eq a a' -> num_eq (fold_left op l a) (fold_left op l a').
Proof using op_Proper.
  induction l as [| x l IH]; intros a a' H; simpl; auto.
  apply IH. apply op_Proper; [exact H | reflexivity].
Qed.

Lemma fold_left_Permutation (l l' : list num) :
  Permutation l l' ->
  forall a, num_eq (fold_left op l a) (fold_left op l' a).
Proof using op_Proper op_right_comm.
  induction 1 as [| x l l' _ IH | x y l | l l' l'' _ IH1 _ IH2];
    intros a; simpl.
  - reflexivity.
  - apply IH.
  - apply fold_left_num_eq. apply op_right_comm.
  - etransitivity; [apply IH1 | apply IH2].
Qed.
End FoldPermutation.

Lemma Math_max_Permutation (l l' : list num) :
  Permutation l l' -> num_eq (Math_max l) (Math_max l').
Proof.
  intros H. unfold Math_max.
  apply fold_left_Permutation; auto using max2_right_comm.
  exact max2_Proper.
Qed.

Lemma Math_min_Permutation (l l' : list num) :
  Permutation l l' -> num_eq (Math_min l) (Math_min l').
Proof.
  intros H. unfold Math_min.
  apply fold_left_Permutation; auto using min2_right_comm.
  exact min2_Proper.
Qed.

Lemma diversity_firstn (lev : jsstring -> jsstring -> nat)
    (names names' : list jsstring) :
  firstn 5 names = firstn 5 names' ->
  calculateOrthographicDiversity lev names
  = calculateOrthographicDiversity lev names'.
Proof.
  intros H. rewrite !diversity_is_spec. unfold diversity_spec.
  rewrite H. reflexivity.
Qed.

(** C7: two groups that are permutations of each other and have the same
    first five names have the same size, largest complexity, least and
    largest value and diversity, and so get the same score. *)
Theorem confusion_score_reorder (lev : jsstring -> jsstring -> nat)
    (g1 g2 : list Entry) :
  Permutation g1 g2 ->
  firstn 5 (map name g1) = firstn 5 (map name g2) ->
  length g1 = length g2
  /\ num_eq (Math_max (map complexity g1)) (Math_max (map complexity g2))
  /\ num_eq (Math_min (map value g1)) (Math_min (map value g2))
  /\ num_eq (Math_max (map value g1)) (Math_max (map value g2))
  /\ calculateOrthographicDiversity lev (map name g1)
     = calculateOrthographicDiversity lev (map name g2)
  /\ num_eq (calculateConfusionScore lev g1) (calculateConfusionScore lev g2).
Proof.
  intros Hperm Hprefix.
  pose proof (Permutation_length Hperm) as Hlen.
  pose proof (Math_max_Permutation (Permutation_map complexity Hperm)) as Hc.
  pose proof (Math_min_Permutation (Permutation_map value Hperm)) as Hmin.
  pose proof (Math_max_Permutation (Permutation_map value Hperm)) as Hmax.
  pose proof (diversity_firstn lev _ _ Hprefix) as Hd.
  repeat (split; [assumption |]).
  unfold calculateConfusionScore. cbv zeta.
  cbn [confusionFactors ConfusionFactors.sizePenalty
         ConfusionFactors.complexity ConfusionFactors.valueSpread
         ConfusionFactors.orthoDiversity].
  rewrite Hd, !length_map, Hlen, Hc, Hmin, Hmax.
  reflexivity.
Qed.

(** ** Insertion-ordered maps *)

Lemma str_eqb_eq (a b : jsstring) : str_eqb a b = true <-> a = b.
Proof.
  unfold str_eqb. destruct (jsstring_eq_dec a b); split; auto; discriminate.
Qed.

Lemma str_eqb_neq (a b : jsstring) : str_eqb a b = false <-> a <> b.
Proof.
  unfold str_eqb. destruct (jsstring_eq_dec a b); split; auto;
    try discriminate; contradiction.
Qed.

Lemma str_eqb_refl (a : jsstring) : str_eqb a a = true.
Proof. apply str_eqb_eq. reflexivity. Qed.

Section OrderedMapProofs.
Variable V : Type.
Implicit Types (m : OMap V) (k : jsstring) (v : V)
  (f g : jsstring -> V).

Lemma map_get_app (m1 m2 : OMap V) k :
  map_get (m1 ++ m2) k
  = match map_get m1 k with Some v => Some v | None => map_get m2 k end.
Proof.
  induction m1 as [| (k', v') m1 IH]; simpl; auto.
  destruct (str_eqb k' k); auto.
Qed.

Lemma map_set_absent m k v :
  map_get m k = None -> map_set m k v = m ++ [(k, v)].
Proof.
  induction m as [| (k', v') m IH]; simpl; auto.
  destruct (str_eqb k' k); [discriminate |].
  intros H. rewrite IH; auto.
Qed.

Lemma map_set_last m k v0 v :
  map_get m k = None -> map_set (m ++ [(k, v0)]) k v = m ++ [(k, v)].
Proof.
  induction m as [| (k', v') m IH]; simpl.
  - rewrite str_eqb_refl. reflexivity.
  - destruct (str_eqb k' k); [discriminate |].
    intros H. rewrite IH; auto.
Qed.

Lemma map_get_tabulate_in f ks k :
  In k ks -> map_get (tabulate f ks) k = Some (f k).
Proof.
  induction ks as [| a ks IH]; simpl; [tauto |].
  destruct (str_eqb a k) eqn:E.
  - apply str_eqb_eq in E. subst. reflexivity.
  - apply str_eqb_neq in E. intros [H | H]; [contradiction | auto].
Qed.

Lemma map_get_tabulate_out f ks k :
  ~ In k ks -> map_get (tabulate f ks) k = None.
Proof.
  induction ks as [| a ks IH]; simpl; auto.
  intros H. destruct (str_eqb a k) eqn:E.
  - apply str_eqb_eq in E. tauto.
  - apply IH. tauto.
Qed.

Lemma tabulate_ext f g ks :
  (forall k, In k ks -> f k = g k) -> tabulate f ks = tabulate g ks.
Proof.
  intros H. unfold tabulate. apply map_ext_in.
  intros k Hk. rewrite H; auto.
Qed.

Lemma map_set_tabulate f ks k v :
  NoDup ks -> In k ks ->
  map_set (tabulate f ks) k v
  = tabulate (fun k' => if str_eqb k' k then v else f k') ks.
Proof.
  induction 1 as [| a ks Ha Hnd IH]; simpl; [tauto |].
  destruct (str_eqb a k) eqn:E.
  - intros _. apply str_eqb_eq in E. subst a. f_equal.
    apply tabulate_ext. intros k' Hk'.
    destruct (str_eqb k' k) eqn:E'; auto.
    apply str_eqb_eq in E'. subst. contradiction.
  - apply str_eqb_neq in E. intros [H | H]; [contradiction |].
    f_equal. apply IH. exact H.
Qed.
End OrderedMapProofs.

(** ** [phoneticMap] *)

Lemma first_occurrences_In (l : list jsstring) (k : jsstring) :
  In k (first_occurrences l) <-> In k l.
Proof.
  induction l as [| a l IH]; simpl; [tauto |].
  rewrite filter_In, IH, negb_true_iff, str_eqb_neq.
  destruct (jsstring_eq_dec a k); [subst |]; tauto.
Qed.

Lemma first_occurrences_NoDup (l : list jsstring) :
  NoDup (first_occurrences l).
Proof.
  induction l as [| a l IH]; simpl; constructor.
  - rewrite filter_In, negb_true_iff, str_eqb_neq. tauto.
  - apply NoDup_filter. exact IH.
Qed.

Lemma first_occurrences_snoc (l : list jsstring) (k : jsstring) :
  first_occurrences (l ++ [k])
  = if in_dec jsstring_eq_dec k l then first_occurrences l
    else first_occurrences l ++ [k].
Proof.
  induction l as [| a l IH]; simpl; [reflexivity |].
  rewrite IH.
  destruct (jsstring_eq_dec a k) as [-> | Hak].
  - destruct (in_dec jsstring_eq_dec k l); auto.
    rewrite filter_app. simpl. rewrite str_eqb_refl. simpl.
    rewrite app_nil_r. reflexivity.
  - destruct (in_dec jsstring_eq_dec k l); auto.
    rewrite filter_app. simpl.
    apply str_eqb_neq in Hak. rewrite Hak. reflexivity.
Qed.

(** The keys come in the order of their first occurrence: a key precedes
    another exactly when its first occurrence in the list does. *)
Lemma first_occurrences_order (l : list jsstring) (k1 k2 : jsstring) :
  forall pre post,
    first_occurrences l = pre ++ k2 :: post -> In k1 pre ->
    exists l1 l2, l = l1 ++ k2 :: l2 /\ In k1 l1 /\ ~ In k2 l1.
Proof.
  induction l as [| a l IH]; intros pre post Heq Hin; simpl in Heq.
  - destruct pre; discriminate.
  - destruct pre as [| b pre]; [contradiction |].
    simpl in Heq. injection Heq as <- Hrest.
    assert (Hk2 : In k2 (filter (fun k' => negb (str_eqb a k'))
                           (first_occurrences l))).
    { rewrite Hrest. apply in_or_app. right. left. reflexivity. }
    apply filter_In in Hk2 as (Hk2 & Hne).
    apply negb_true_iff, str_eqb_neq in Hne.
    apply (proj1 (first_occurrences_In l k2)) in Hk2.
    destruct Hin as [<- | Hin].
    + apply in_split in Hk2 as (l1 & l2 & ->).
      assert (Hfirst : exists p q, l1 ++ k2 :: l2 = p ++ k2 :: q /\ ~ In k2 p).
      { clear. induction l1 as [| x l1 IH]; simpl.
        - exists [], l2. split; auto.
        - destruct (jsstring_eq_dec x k2) as [-> | Hx].
          + exists [], (l1 ++ k2 :: l2). split; auto.
          + destruct IH as (p & q & -> & Hp). exists (x :: p), q.
            split; auto. simpl. tauto. }
      destruct Hfirst as (p & q & -> & Hp).
      exists (a :: p), q. split; [reflexivity |]. split; [left; auto |].
      simpl. tauto.
    + (* both keys come from the tail *)
      assert (Hsplit : exists pre' post',
                first_occurrences l = pre' ++ k2 :: post' /\ In k1 pre').
      { clear IH. revert pre post Hrest Hin.
        induction (first_occurrences l) as [| x fo IHfo]; intros pre post Hrest Hin.
        - destruct pre; discriminate.
        - simpl in Hrest. destruct (str_eqb a x) eqn:E; simpl in Hrest.
          + destruct (IHfo _ _ Hrest Hin) as (pre' & post' & -> & Hin').
            exists (x :: pre'), post'. split; auto. right. exact Hin'.
          + destruct pre as [| y pre]; [contradiction |].
            simpl in Hrest. injection Hrest as <- Hrest.
            destruct Hin as [<- | Hin].
            * assert (Hk2' : In k2 fo).
              { assert (H : In k2 (filter (fun k' => negb (str_eqb a k')) fo)).
                { rewrite Hrest. apply in_or_app. right. left. reflexivity. }
                apply filter_In in H. tauto. }
              apply in_split in Hk2' as (p & q & ->).
              exists (x :: p), q. split; auto. left. reflexivity.
            * destruct (IHfo _ _ Hrest Hin) as (pre' & post' & -> & Hin').
              exists (x :: pre'), post'. split; auto. right. exact Hin'. }
      destruct Hsplit as (pre' & post' & Heq' & Hin').
      destruct (IH _ _ Heq' Hin') as (l1 & l2 & -> & H1 & H2).
      exists (a :: l1), l2. split; [reflexivity |]. split; [right; auto |].
      simpl. intros [-> | H]; [congruence | tauto].
Qed.

Section IndexProofs.
Variable dm : jsstring -> jsstring * jsstring.

Lemma bucket_of_snoc (pre : list Entry) (e : Entry) (k : jsstring) :
  bucket_of dm (pre ++ [e]) k
  = bucket_of dm pre k ++ (if str_eqb (code_of dm e) k then [e] else []).
Proof.
  unfold bucket_of. rewrite filter_app. simpl.
  destruct (str_eqb (code_of dm e) k); reflexivity.
Qed.

Lemma bucket_of_absent (pre : list Entry) (k : jsstring) :
  ~ In k (map (code_of dm) pre) -> bucket_of dm pre k = [].
Proof.
  unfold bucket_of. induction pre as [| e pre IH]; simpl; auto.
  intros H. destruct (str_eqb (code_of dm e) k) eqn:E.
  - apply str_eqb_eq in E. tauto.
  - apply IH. tauto.
Qed.

(** One turn of the [forEach]: from the index of a prefix to the index of
    the prefix with one more entry. *)
Lemma index_step_spec (pre : list Entry) (e : Entry) :
  index_step dm (index_spec dm pre) e = Some (index_spec dm (pre ++ [e])).
Proof.
  unfold index_step, index_spec, map_push, map_has. cbv zeta.
  set (k := code_of dm e). set (ks := first_occurrences (map (code_of dm) pre)).
  rewrite map_app. simpl map. fold k. rewrite first_occurrences_snoc. fold ks.
  destruct (in_dec jsstring_eq_dec k (map (code_of dm) pre)) as [Hin | Hout].
  - assert (Hks : In k ks) by (apply first_occurrences_In; exact Hin).
    rewrite (map_get_tabulate_in _ _ _ Hks). simpl negb. cbv iota.
    rewrite (map_get_tabulate_in _ _ _ Hks). f_equal.
    rewrite map_set_tabulate
      by (try apply first_occurrences_NoDup; assumption).
    apply tabulate_ext. intros k' _. rewrite bucket_of_snoc. fold k.
    destruct (str_eqb k' k) eqn:E.
    + apply str_eqb_eq in E. subst k'. rewrite str_eqb_refl. reflexivity.
    + apply str_eqb_neq in E.
      assert (E' : str_eqb k k' = false) by (apply str_eqb_neq; congruence).
      rewrite E', app_nil_r. reflexivity.
  - assert (Hks : ~ In k ks).
    { intros H. apply Hout. apply first_occurrences_In. exact H. }
    rewrite (map_get_tabulate_out _ _ _ Hks). simpl negb. cbv iota.
    rewrite (map_set_absent _ _ _ (map_get_tabulate_out _ _ _ Hks)).
    rewrite map_get_app, (map_get_tabulate_out _ _ _ Hks). simpl map_get.
    rewrite str_eqb_refl. f_equal.
    rewrite (map_set_last _ _ _ _ (map_get_tabulate_out _ _ _ Hks)).
    unfold tabulate. rewrite map_app. simpl map. f_equal.
    + apply map_ext_in. intros k' Hk'. rewrite bucket_of_snoc. fold k.
      destruct (str_eqb k k') eqn:E.
      * apply str_eqb_eq in E. subst k'. contradiction.
      * rewrite app_nil_r. reflexivity.
    + rewrite bucket_of_snoc. fold k. rewrite str_eqb_refl.
      rewrite (bucket_of_absent _ _ Hout). reflexivity.
Qed.

Lemma index_from_spec (es pre : list Entry) :
  index_from dm (index_spec dm pre) es = Some (index_spec dm (pre ++ es)).
Proof.
  revert pre. induction es as [| e es IH]; intros pre; simpl.
  - rewrite app_nil_r. reflexivity.
  - rewrite index_step_spec, IH, <- app_assoc. reflexivity.
Qed.

Lemma phoneticMap_is_spec (es : list Entry) :
  phoneticMap dm es = Some (index_spec dm es).
Proof. exact (index_from_spec es []). Qed.

Lemma code_of_join (e : Entry) :
  code_of dm e = fst (dm (name e)) ++ separator ++ snd (dm (name e)).
Proof. reflexivity. Qed.

(** C8: the index never fails; its keys are the codes
    [primary ++ "|" ++ secondary] of the entries (the separator stays when
    the secondary code is empty) in order of first occurrence (a key comes
    before another exactly when it occurs in the input before the other
    does), without repetition, and the bucket of a key is the sub-sequence
    of the input with that code, in input order. *)
Theorem phoneticMap_buckets (es : list Entry) :
  (forall e, code_of dm e
             = fst (dm (name e)) ++ lit "|" ++ snd (dm (name e)))
  /\ (forall e, snd (dm (name e)) = [] ->
                code_of dm e = fst (dm (name e)) ++ lit "|")
  /\ exists m,
       phoneticMap dm es = Some m
       /\ map fst m = first_occurrences (map (code_of dm) es)
       /\ NoDup (map fst m)
       /\ (forall k, In k (map fst m) <-> exists e, In e es /\ code_of dm e = k)
       /\ (forall k1 k2 before after,
              map fst m = before ++ k2 :: after -> In k1 before ->
              exists l1 l2,
                map (code_of dm) es = l1 ++ k2 :: l2
                /\ In k1 l1 /\ ~ In k2 l1)
       /\ (forall k bucket,
              In (k, bucket) m ->
              bucket = filter (fun e => str_eqb (code_of dm e) k) es)
       /\ m = index_spec dm es.
Proof.
  split; [intros e; apply code_of_join |].
  split; [intros e H; rewrite code_of_join, H; reflexivity |].
  exists (index_spec dm es).
  assert (Hkeys : map fst (index_spec dm es)
                  = first_occurrences (map (code_of dm) es)).
  { unfold index_spec, tabulate. rewrite map_map. simpl. apply map_id. }
  split; [apply phoneticMap_is_spec |]. split; [exact Hkeys |].
  rewrite Hkeys. split; [apply first_occurrences_NoDup |].
  split; [| split; [| split]].
  - intros k. rewrite first_occurrences_In, in_map_iff.
    split; intros (e & H1 & H2); exists e; auto.
  - intros k1 k2 before after. apply first_occurrences_order.
  - intros k bucket Hin. unfold index_spec, tabulate in Hin.
    apply in_map_iff in Hin as (k' & Heq & _). inversion Heq; subst.
    reflexivity.
  - reflexivity.
Qed.
End IndexProofs.

(** ** The sort *)

Lemma gt_zero_of_difference (a b : num) :
  num_gtb (num_sub b a) (Fin 0) = num_ltb a b.
Proof.
  unfold num_gtb, num_sub.
  destruct a as [p | | |], b as [q | | |]; simpl; auto.
  destruct (Qcompare_spec 0 (q + - p)), (Qcompare_spec p q);
    auto; exfalso; lra.
Qed.

Lemma num_le_trans (a b c : num) : num_le a b -> num_le b c -> num_le a c.
Proof. destruct a, b, c; simpl; auto; try contradiction. intros; lra. Qed.

Lemma num_ltb_le (a b : num) : num_ltb a b = true -> num_le a b.
Proof.
  destruct a as [p | | |], b as [q | | |]; simpl; auto; try discriminate.
  destruct (Qcompare_spec p q); try discriminate. intros _. lra.
Qed.

Lemma num_ltb_false_le (a b : num) :
  a <> NaN -> b <> NaN -> num_ltb a b = false -> num_le b a.
Proof.
  destruct a as [p | | |], b as [q | | |]; simpl; auto; try discriminate;
    try congruence.
  destruct (Qcompare_spec p q); try discriminate; intros; lra.
Qed.

(** Two numbers [===] to a third are not strictly ordered. *)
Lemma num_eqb_not_lt (a b s : num) :
  num_eqb a s = true -> num_eqb b s = true -> num_ltb a b = false.
Proof.
  destruct a as [p | | |], b as [q | | |], s as [r | | |]; simpl; auto;
    try discriminate.
  intros H1 H2. apply Qeq_bool_iff in H1, H2.
  destruct (Qcompare_spec p q); auto. exfalso. lra.
Qed.

Lemma num_le_lt_not_eqb (z y x s : num) :
  num_le z y -> num_ltb y x = true -> num_eqb x s = true ->
  num_eqb z s = false.
Proof.
  intros Hzy Hyx Hx. destruct (num_eqb z s) eqn:Hz; auto.
  pose proof (num_eqb_not_lt _ _ _ Hz Hx) as Hzx.
  destruct z as [p | | |], y as [q | | |], x as [r | | |];
    simpl in *; try discriminate; try contradiction;
    destruct s; simpl in *; try discriminate.
  apply Qeq_bool_iff in Hz, Hx.
  destruct (Qcompare_spec q r); try discriminate. exfalso. lra.
Qed.

Lemma num_ltb_le_refl (a b : num) : num_ltb a b = true -> num_le a a.
Proof.
  destruct a as [p | | |], b; simpl; auto; try discriminate; intros; lra.
Qed.

Lemma filter_all_false (A : Type) (f : A -> bool) (l : list A) :
  Forall (fun a => f a = false) l -> filter f l = [].
Proof.
  induction 1 as [| a l Ha _ IH]; simpl; auto. rewrite Ha. exact IH.
Qed.

Section SortProofs.
Variable A : Type.
Variable key : A -> num.


Lemma sort_insert_unfold (x y : A) (rest : list A) :
  sort_insert (desc_cmp key) x (y :: rest)
  = if num_ltb (key y) (key x) then x :: y :: rest
    else y :: sort_insert (desc_cmp key) x rest.
Proof.
  cbn [sort_insert]. unfold desc_cmp.
  rewrite gt_zero_of_difference. reflexivity.
Qed.

Lemma sort_insert_Permutation (x : A) (l : list A) :
  Permutation (sort_insert (desc_cmp key) x l) (x :: l).
Proof.
  induction l as [| y rest IH]; [reflexivity |].
  rewrite sort_insert_unfold. destruct (num_ltb (key y) (key x)); auto.
  rewrite IH. apply perm_swap.
Qed.

Lemma Array_sort_acc_Permutation (l acc : list A) :
  Permutation (fold_left (fun sorted x => sort_insert (desc_cmp key) x sorted) l acc)
    (acc ++ l).
Proof.
  revert acc. induction l as [| x l IH]; intros acc; simpl.
  - rewrite app_nil_r. reflexivity.
  - rewrite IH, sort_insert_Permutation. apply Permutation_middle.
Qed.

Lemma Array_sort_Permutation (l : list A) :
  Permutation (Array_sort (desc_cmp key) l) l.
Proof. apply (Array_sort_acc_Permutation l []). Qed.

Lemma sort_insert_sorted (x : A) (l : list A) :
  key x <> NaN -> Forall (fun a => key a <> NaN) l ->
  StronglySorted (desc key) l -> StronglySorted (desc key) (sort_insert (desc_cmp key) x l).
Proof.
  intros Hx Hl Hs. induction Hs as [| y rest Hs IH Hy].
  - repeat constructor.
  - rewrite sort_insert_unfold.
    inversion Hl as [| ? ? Hyn Hrest]; subst.
    destruct (num_ltb (key y) (key x)) eqn:E.
    + constructor; [constructor; assumption |].
      apply num_ltb_le in E. constructor; [exact E |].
      apply Forall_impl with (2 := Hy). intros z Hz. unfold desc in *.
      eapply num_le_trans; eauto.
    + constructor; [apply IH; assumption |].
      apply (Permutation_Forall (Permutation_sym (sort_insert_Permutation x rest))).
      constructor; [| exact Hy].
      unfold desc. apply num_ltb_false_le; auto.
Qed.

Lemma sort_insert_filter (s : num) (x : A) (l : list A) :
  StronglySorted (desc key) l ->
  filter (fun a => num_eqb (key a) s) (sort_insert (desc_cmp key) x l)
  = filter (fun a => num_eqb (key a) s) l
    ++ (if num_eqb (key x) s then [x] else []).
Proof.
  intros Hs. induction Hs as [| y rest Hs IH Hy].
  - simpl. destruct (num_eqb (key x) s); reflexivity.
  - rewrite sort_insert_unfold.
    destruct (num_ltb (key y) (key x)) eqn:E.
    + destruct (num_eqb (key x) s) eqn:Ex.
      * assert (Hall : Forall (fun a => num_eqb (key a) s = false) (y :: rest)).
        { constructor.
          - apply (num_le_lt_not_eqb (key y) (key y) (key x) s); auto.
            apply (num_ltb_le_refl _ _ E).
          - apply Forall_impl with (2 := Hy). intros z Hz.
            apply (num_le_lt_not_eqb (key z) (key y) (key x) s); auto. }
        change (x :: y :: rest) with ([x] ++ y :: rest).
        rewrite filter_app, (filter_all_false _ Hall).
        cbn [filter]. rewrite Ex. reflexivity.
      * cbn [filter]. rewrite Ex, app_nil_r. reflexivity.
    + cbn [filter]. rewrite IH.
      destruct (num_eqb (key y) s); reflexivity.
Qed.
End SortProofs.

Section SortedOutput.
Variable A : Type.
Variable key : A -> num.

Lemma sort_fold_invariant (s : num) (l : list A) :
  Forall (fun a => key a <> NaN) l ->
  forall acc,
    Forall (fun a => key a <> NaN) acc ->
    StronglySorted (desc key) acc ->
    let out := fold_left (fun sorted x => sort_insert (desc_cmp key) x sorted)
                 l acc in
    StronglySorted (desc key) out
    /\ filter (fun a => num_eqb (key a) s) out
       = filter (fun a => num_eqb (key a) s) acc
         ++ filter (fun a => num_eqb (key a) s) l.
Proof.
  induction 1 as [| x l Hx Hl IH]; intros acc Hacc Hs; cbn [fold_left].
  - split; [exact Hs |]. rewrite app_nil_r. reflexivity.
  - destruct (IH (sort_insert (desc_cmp key) x acc)) as (H1 & H2).
    + apply (Permutation_Forall
               (Permutation_sym (sort_insert_Permutation key x acc))).
      constructor; assumption.
    + apply sort_insert_sorted; assumption.
    + split; [exact H1 |]. cbv zeta in H2. rewrite H2.
      rewrite sort_insert_filter by exact Hs.
      rewrite <- app_assoc. f_equal. cbn [filter].
      destruct (num_eqb (key x) s); reflexivity.
Qed.

Lemma Array_sort_sorted (l : list A) :
  Forall (fun a => key a <> NaN) l ->
  StronglySorted (desc key) (Array_sort (desc_cmp key) l).
Proof.
  intros H.
  apply (sort_fold_invariant NaN H (acc := [])); constructor.
Qed.

Lemma Array_sort_stable (s : num) (l : list A) :
  Forall (fun a => key a <> NaN) l ->
  filter (fun a => num_eqb (key a) s) (Array_sort (desc_cmp key) l)
  = filter (fun a => num_eqb (key a) s) l.
Proof.
  intros H.
  apply (sort_fold_invariant s H (acc := [])); constructor.
Qed.
End SortedOutput.

(** X25: the sort on scores of which none is NaN: the ranked list is a
    rearrangement of the clusters with the scores in descending order, and
    the clusters of any one score keep the order they had before the
    sort. *)
Theorem rank_sorted_stable (cs : list Cluster) :
  Forall (fun c => confusionScore c <> NaN) cs ->
  Permutation (rank cs) cs
  /\ StronglySorted
       (fun a b => num_le (confusionScore b) (confusionScore a)) (rank cs)
  /\ (forall s : num,
         filter (fun c => num_eqb (confusionScore c) s) (rank cs)
         = filter (fun c => num_eqb (confusionScore c) s) cs).
Proof.
  intros H. split; [| split].
  - apply (Array_sort_Permutation confusionScore).
  - apply (Array_sort_sorted confusionScore H).
  - intros s. apply (Array_sort_stable confusionScore s H).
Qed.

Lemma num_le_not_NaN (a b : num) : num_le a b -> a <> NaN /\ b <> NaN.
Proof. destruct a, b; simpl; intros H; try contradiction; split; discriminate. Qed.

(** A list of two or more elements in descending order has no NaN key. *)
Lemma sorted_keys_not_NaN (A : Type) (key : A -> num) (l : list A) :
  StronglySorted (desc key) l -> (2 <= length l)%nat ->
  Forall (fun a => key a <> NaN) l.
Proof.
  intros Hs Hlen. inversion Hs as [| a rest _ Ha]; subst.
  - simpl in Hlen. lia.
  - destruct rest as [| b rest']; [simpl in Hlen; lia |].
    constructor.
    + inversion Ha as [| ? ? Hb _]; subst.
      apply (num_le_not_NaN _ _ Hb).
    + apply Forall_impl with (2 := Ha). intros r Hr.
      apply (num_le_not_NaN _ _ Hr).
Qed.

(** C6 (what the script does): when one of two or more clusters has the
    score NaN, which the script gives to a group whose values are all 0,
    the comparator returns NaN on it and the sorted list is not in
    descending order of score; indeed no rearrangement of these clusters
    is. *)
Theorem rank_with_NaN_score (cs : list Cluster) :
  (2 <= length cs)%nat ->
  Exists (fun c => confusionScore c = NaN) cs ->
  (exists c, In c cs /\ forall d, by_score_desc c d = NaN
                                  /\ by_score_desc d c = NaN)
  /\ ~ StronglySorted
        (fun a b => num_le (confusionScore b) (confusionScore a)) (rank cs)
  /\ (forall out,
         Permutation out cs ->
         ~ StronglySorted
             (fun a b => num_le (confusionScore b) (confusionScore a)) out).
Proof.
  intros Hlen Hnan.
  assert (Hall : forall out,
             Permutation out cs ->
             ~ StronglySorted
                 (fun a b => num_le (confusionScore b) (confusionScore a))
                 out).
  { intros out Hperm Hs.
    assert (Hlen' : (2 <= length out)%nat)
      by (rewrite (Permutation_length Hperm); exact Hlen).
    pose proof (sorted_keys_not_NaN (key := confusionScore) Hs Hlen') as Hno.
    apply (Permutation_Forall Hperm) in Hno.
    apply Exists_exists in Hnan as (c & Hc & E).
    rewrite Forall_forall in Hno. exact (Hno c Hc E). }
  split; [| split; [| exact Hall]].
  - apply Exists_exists in Hnan as (c & Hc & E). exists c.
    split; [exact Hc |]. intros d. unfold by_score_desc.
    rewrite E. split; [| reflexivity].
    destruct (confusionScore d); reflexivity.
  - apply Hall. apply (Array_sort_Permutation confusionScore).
Qed.

(** ** [clusters] *)

Section ClusterProofs.
Variable lev : jsstring -> jsstring -> nat.

Lemma clusters_step_spec (acc : list Cluster) (b : jsstring * list Entry) :
  clusters_step lev acc b
  = acc ++ (if big_enough b then [mkCluster lev (fst b) (snd b)] else []).
Proof.
  destruct b as (code, group). unfold clusters_step, big_enough.
  cbn [fst snd].
  destruct (length group) as [| [| n]]; cbn; rewrite ?app_nil_r; reflexivity.
Qed.

Lemma clusters_acc (m : OMap (list Entry)) :
  forall acc,
    fold_left (clusters_step lev) m acc = acc ++ clusters_spec lev m.
Proof.
  induction m as [| b m IH]; intros acc; cbn [fold_left].
  - unfold clusters_spec. simpl. rewrite app_nil_r. reflexivity.
  - rewrite IH, clusters_step_spec, <- app_assoc. f_equal.
    unfold clusters_spec. cbn [filter].
    destruct (big_enough b); reflexivity.
Qed.

(** The loop keeps the buckets of two or more entries, in map order. *)
Lemma clusters_is_spec (m : OMap (list Entry)) :
  clusters lev m = clusters_spec lev m.
Proof. apply (clusters_acc m []). Qed.

Lemma clusters_In (m : OMap (list Entry)) (c : Cluster) :
  In c (clusters lev m) <->
  exists code group,
    In (code, group) m /\ (2 <= length group)%nat
    /\ c = mkCluster lev code group.
Proof.
  rewrite clusters_is_spec. unfold clusters_spec.
  rewrite in_map_iff. split.
  - intros ((code, group) & <- & Hin). apply filter_In in Hin as (Hin & Hbig).
    exists code, group. repeat split; auto.
    unfold big_enough in Hbig. cbn [snd] in Hbig.
    apply Nat.leb_le in Hbig. exact Hbig.
  - intros (code & group & Hin & Hlen & ->). exists (code, group).
    split; auto. apply filter_In. split; auto.
    unfold big_enough. cbn [snd]. apply Nat.leb_le. exact Hlen.
Qed.

Lemma clusters_members (m : OMap (list Entry)) (c : Cluster) :
  In c (clusters lev m) ->
  (2 <= length (entries c))%nat /\ names c = map name (entries c).
Proof.
  intros H. apply clusters_In in H as (code & group & _ & Hlen & ->).
  split; auto.
Qed.

Lemma clusters_none (m : OMap (list Entry)) :
  Forall (fun b => (length (snd b) < 2)%nat) m -> clusters lev m = [].
Proof.
  intros H. rewrite clusters_is_spec. unfold clusters_spec.
  rewrite filter_all_false; auto.
  apply Forall_impl with (2 := H). intros b Hb. unfold big_enough.
  apply Nat.leb_gt. exact Hb.
Qed.
End ClusterProofs.

(** C5: every cluster built from a bucket map has at least two members; the
    clusters are exactly the buckets of two or more entries, in map order, so
    that a smaller bucket gives no cluster; and the same holds after the
    sort and for the output of the whole run. *)
Theorem clusters_at_least_two (jw : jsstring -> jsstring -> num)
    (lev : jsstring -> jsstring -> nat)
    (dm : jsstring -> jsstring * jsstring) :
  (forall m c, In c (clusters lev m) -> (2 <= length (entries c))%nat)
  /\ (forall m, clusters lev m
                = map (fun b => mkCluster lev (fst b) (snd b))
                    (filter (fun b => 2 <=? length (snd b)) m))
  /\ (forall m code group,
         In (code, group) m -> (length group < 2)%nat ->
         ~ In (mkCluster lev code group) (clusters lev m))
  /\ (forall m c, In c (rank (clusters lev m)) ->
                  (2 <= length (entries c))%nat)
  /\ (forall rows,
         exists out,
           analyse jw lev dm rows = Some out
           /\ forall c, In c out -> (2 <= length (entries c))%nat).
Proof.
  split; [| split; [| split; [| split]]].
  - intros m c H. apply (clusters_members lev m c H).
  - intros m. apply clusters_is_spec.
  - intros m code group _ Hlen Hin.
    apply clusters_members in Hin as (Hin & _). cbn in Hin. lia.
  - intros m c H. apply (clusters_members lev m c).
    apply (Permutation_in c (Array_sort_Permutation confusionScore _)).
    exact H.
  - intros rows. unfold analyse. rewrite phoneticMap_is_spec.
    eexists. split; [reflexivity |]. intros c H.
    apply (clusters_members lev (index_spec dm (map (mkEntry jw) rows)) c).
    apply (Permutation_in c (Array_sort_Permutation confusionScore _)).
    exact H.
Qed.

(** ** The buckets partition the input *)

Lemma filter_of_map (A B : Type) (g : A -> B) (p : B -> bool) (l : list A) :
  filter p (map g l) = map g (filter (fun a => p (g a)) l).
Proof.
  induction l as [| a l IH]; simpl; auto.
  destruct (p (g a)); simpl; rewrite IH; reflexivity.
Qed.

Lemma filter_disjoint_app (A : Type) (p q : A -> bool) (l : list A) :
  (forall a, In a l -> p a = true -> q a = false) ->
  Permutation (filter p l ++ filter q l) (filter (fun a => p a || q a) l).
Proof.
  induction l as [| a l IH]; intros H; simpl; [constructor |].
  assert (IH' := IH (fun b Hb => H b (or_intror Hb))).
  destruct (p a) eqn:Ep; simpl.
  - rewrite (H a (or_introl eq_refl) Ep). constructor. exact IH'.
  - destruct (q a); simpl; auto.
    rewrite <- Permutation_middle. constructor. exact IH'.
Qed.

Section PartitionProofs.
Variable dm : jsstring -> jsstring * jsstring.

Lemma code_in_iff (ks : list jsstring) (e : Entry) :
  code_in dm ks e = true <-> In (code_of dm e) ks.
Proof.
  unfold code_in. rewrite existsb_exists. split.
  - intros (k & Hk & E). apply str_eqb_eq in E. subst. exact Hk.
  - intros H. exists (code_of dm e). split; auto. apply str_eqb_refl.
Qed.

(** The buckets of distinct keys, put end to end, are the entries whose
    code is one of the keys. *)
Lemma buckets_concat (es : list Entry) (ks : list jsstring) :
  NoDup ks ->
  Permutation (concat (map (bucket_of dm es) ks)) (filter (code_in dm ks) es).
Proof.
  induction 1 as [| k ks Hk Hnd IH]; simpl.
  - rewrite filter_all_false; [constructor |].
    apply Forall_forall. intros; reflexivity.
  - rewrite IH. unfold bucket_of.
    rewrite filter_disjoint_app.
    + apply Permutation_refl'. apply filter_ext. intros e. reflexivity.
    + intros e _ He. apply str_eqb_eq in He.
      destruct (code_in dm ks e) eqn:E; auto.
      apply code_in_iff in E. rewrite He in E. contradiction.
Qed.

Lemma index_spec_values (es : list Entry) (ks : list jsstring) :
  map snd (tabulate (bucket_of dm es) ks) = map (bucket_of dm es) ks.
Proof. unfold tabulate. rewrite map_map. reflexivity. Qed.

Lemma buckets_cover (es : list Entry) :
  Permutation (concat (map snd (index_spec dm es))) es.
Proof.
  unfold index_spec. rewrite index_spec_values.
  rewrite buckets_concat by apply first_occurrences_NoDup.
  apply Permutation_refl'.
  transitivity (filter (fun _ : Entry => true) es).
  - apply filter_ext_in. intros e He. apply code_in_iff.
    apply first_occurrences_In. apply in_map. exact He.
  - clear. induction es; simpl; congruence.
Qed.

Lemma bucket_members (es : list Entry) (k : jsstring) (e : Entry) :
  In e (bucket_of dm es k) <-> In e es /\ code_of dm e = k.
Proof. unfold bucket_of. rewrite filter_In, str_eqb_eq. reflexivity. Qed.
End PartitionProofs.

Section ClusterPartition.
Variable lev : jsstring -> jsstring -> nat.
Variable dm : jsstring -> jsstring * jsstring.

Lemma clusters_of_index (es : list Entry) :
  clusters lev (index_spec dm es)
  = map (fun k => mkCluster lev k (bucket_of dm es k))
      (filter (fun k => 2 <=? length (bucket_of dm es k))
         (first_occurrences (map (code_of dm) es))).
Proof.
  rewrite clusters_is_spec. unfold clusters_spec, index_spec, tabulate.
  rewrite filter_of_map, map_map. reflexivity.
Qed.

Lemma cluster_codes_NoDup (es : list Entry) :
  NoDup (map phoneticCode (clusters lev (index_spec dm es))).
Proof.
  rewrite clusters_of_index, map_map. cbn [phoneticCode mkCluster].
  rewrite map_id. apply NoDup_filter. apply first_occurrences_NoDup.
Qed.

Lemma cluster_members_code (es : list Entry) (c : Cluster) (e : Entry) :
  In c (clusters lev (index_spec dm es)) -> In e (entries c) ->
  In e es /\ code_of dm e = phoneticCode c.
Proof.
  rewrite clusters_of_index, in_map_iff. intros (k & <- & _) He.
  cbn in *. apply bucket_members in He. exact He.
Qed.

Lemma cluster_members_concat (es : list Entry) :
  Permutation (concat (map entries (clusters lev (index_spec dm es))))
    (filter (colliding dm es) es).
Proof.
  rewrite clusters_of_index, map_map. cbn [entries mkCluster].
  rewrite buckets_concat
    by (apply NoDup_filter; apply first_occurrences_NoDup).
  apply Permutation_refl'. apply filter_ext_in. intros e He.
  unfold colliding.
  destruct (2 <=? length (bucket_of dm es (code_of dm e))) eqn:E.
  - apply code_in_iff. apply filter_In. split; auto.
    apply first_occurrences_In. apply in_map. exact He.
  - destruct (code_in dm _ e) eqn:E'; auto.
    apply code_in_iff, filter_In in E' as (_ & E'). congruence.
Qed.
End ClusterPartition.

Lemma NoDup_map_nth_error (A B : Type) (f : A -> B) (l : list A)
    (i j : nat) (a b : A) :
  NoDup (map f l) -> nth_error l i = Some a -> nth_error l j = Some b ->
  f a = f b -> i = j.
Proof.
  intros Hnd Hi Hj Hf.
  apply (proj1 (NoDup_nth_error (map f l))) with (i := i) (j := j); auto.
  - rewrite length_map. apply nth_error_Some. congruence.
  - rewrite (map_nth_error f _ _ Hi), (map_nth_error f _ _ Hj), Hf.
    reflexivity.
Qed.

(** C10: the buckets partition the input (put end to end they are a
    rearrangement of it, each entry lying in the bucket of its own code, and
    no code has two buckets); the clusters have pairwise different codes, so
    the members of two clusters are disjoint; together the clusters hold
    exactly the entries that share their code with another entry, each once;
    an input without repeated entries gives clusters without repeated
    entries. *)
Theorem clusters_partition (lev : jsstring -> jsstring -> nat)
    (dm : jsstring -> jsstring * jsstring) (es : list Entry) :
  exists m,
    phoneticMap dm es = Some m
    /\ Permutation (concat (map snd m)) es
    /\ (forall k bucket e,
           In (k, bucket) m -> (In e bucket <-> In e es /\ code_of dm e = k))
    /\ NoDup (map fst m)
    /\ NoDup (map phoneticCode (clusters lev m))
    /\ (forall c e,
           In c (clusters lev m) -> In e (entries c) ->
           In e es /\ code_of dm e = phoneticCode c)
    /\ (forall i j ci cj e,
           i <> j ->
           nth_error (clusters lev m) i = Some ci ->
           nth_error (clusters lev m) j = Some cj ->
           In e (entries ci) -> ~ In e (entries cj))
    /\ Permutation (concat (map entries (clusters lev m)))
         (filter (colliding dm es) es)
    /\ (NoDup es -> NoDup (concat (map entries (clusters lev m)))).
Proof.
  exists (index_spec dm es). split; [apply phoneticMap_is_spec |].
  split; [apply buckets_cover |].
  split; [| split; [| split; [| split; [| split; [| split]]]]].
  - intros k bucket e Hin. unfold index_spec, tabulate in Hin.
    apply in_map_iff in Hin as (k' & Heq & _). inversion Heq; subst.
    apply bucket_members.
  - unfold index_spec, tabulate. rewrite map_map. cbn [fst]. rewrite map_id.
    apply first_occurrences_NoDup.
  - apply cluster_codes_NoDup.
  - intros c e Hc He. apply (cluster_members_code lev dm es c e Hc He).
  - intros i j ci cj e Hij Hi Hj Hei Hej. apply Hij.
    apply (NoDup_map_nth_error phoneticCode _ _ _
             (cluster_codes_NoDup lev dm es) Hi Hj).
    apply nth_error_In in Hi, Hj.
    destruct (cluster_members_code lev dm es ci e Hi Hei) as (_ & <-).
    destruct (cluster_members_code lev dm es cj e Hj Hej) as (_ & <-).
    reflexivity.
  - apply cluster_members_concat.
  - intros Hnd.
    apply (Permutation_NoDup
             (Permutation_sym (cluster_members_concat lev dm es))).
    apply NoDup_filter. exact Hnd.
Qed.

(** ** The instances meet what is assumed of the external functions *)

Lemma ref_similarity_in01 (a b : jsstring) : in01 (ref_similarity a b).
Proof. unfold ref_similarity. destruct (str_eqb a b); simpl; lra. Qed.

Lemma ref_levenshtein_cons (x y : codeunit) (a b : jsstring) :
  ref_levenshtein (x :: a) (y :: b)
  = Nat.min
      (Nat.min (S (ref_levenshtein a (y :: b))) (S (ref_levenshtein (x :: a) b)))
      ((if (x =? y)%N then 0 else 1) + ref_levenshtein a b)%nat.
Proof. reflexivity. Qed.

Lemma ref_levenshtein_bound (a b : jsstring) :
  (ref_levenshtein a b <= Nat.max (length a) (length b))%nat.
Proof.
  revert b. induction a as [| x a IHa]; intros b.
  - simpl. lia.
  - induction b as [| y b IHb].
    + simpl. lia.
    + rewrite ref_levenshtein_cons. specialize (IHa b). cbn [length].
      destruct (x =? y)%N; lia.
Qed.

(** ** The theorems at concrete inputs *)

Lemma complexity_nonneg_and_empty_witness :
  (forall a b, in01 (ref_similarity a b))
  /\ nonneg (calculateComplexity ref_similarity (lit "Katherine"))
  /\ num_eq (calculateComplexity ref_similarity [])
       (num_sub (Fin 1) (ref_similarity [] (lit "standard"))).
Proof.
  split; [exact ref_similarity_in01 |].
  destruct (@complexity_nonneg_and_empty ref_similarity ref_similarity_in01)
    as (Hall & Hempty & _).
  split; [apply Hall | exact Hempty].
Defined.

Lemma complexity_factor_ranges_witness :
  (forall a b, in01 (ref_similarity a b))
  /\ in01 (ComplexityFactors.length
             (complexityFactors ref_similarity (lit "Katherine")))
  /\ in01 (ComplexityFactors.orthoNeighbors
             (complexityFactors ref_similarity (lit "Katherine"))).
Proof.
  split; [exact ref_similarity_in01 |].
  destruct (@complexity_factor_ranges ref_similarity ref_similarity_in01
              (lit "Katherine"))
    as (Hl & Ho & _).
  split; [exact Hl | exact Ho].
Defined.

(** C9, as stated, fails: a name with six vowel runs has a syllable factor
    of 6/5. *)
Lemma syllable_factor_exceeds_one :
  length (or_empty (match_vowels six_runs)) = 6%nat
  /\ num_eq (ComplexityFactors.syllableCount
               (complexityFactors ref_similarity six_runs)) (Fin (6 # 5))
  /\ ~ in01 (ComplexityFactors.syllableCount
               (complexityFactors ref_similarity six_runs)).
Proof.
  split; [reflexivity |]. split; [reflexivity |].
  intros [_ H]. vm_compute in H. apply H. reflexivity.
Qed.

(** The non-standard factor exceeds 1 as well, from four characters on. *)
Lemma non_standard_factor_exceeds_one :
  num_eq (ComplexityFactors.nonStandardChars
            (complexityFactors ref_similarity four_digits)) (Fin (4 # 3))
  /\ ~ in01 (ComplexityFactors.nonStandardChars
               (complexityFactors ref_similarity four_digits)).
Proof.
  split; [reflexivity |].
  intros [_ H]. vm_compute in H. apply H. reflexivity.
Qed.

Lemma confusion_score_all_zero_NaN_witness :
  (2 <= length zero_group)%nat
  /\ Forall (fun e => num_eq (value e) (Fin 0)) zero_group
  /\ calculateConfusionScore ref_levenshtein zero_group = NaN.
Proof.
  assert (H1 : (2 <= length zero_group)%nat) by (simpl; lia).
  assert (H2 : Forall (fun e => num_eq (value e) (Fin 0)) zero_group)
    by (repeat constructor).
  split; [exact H1 |]. split; [exact H2 |].
  apply (@confusion_score_all_zero_NaN ref_levenshtein zero_group H1 H2).
Defined.

(** The same input through the whole run: the one cluster of the output has
    the score NaN. *)
Lemma analyse_zero_values :
  option_map (map confusionScore)
    (analyse ref_similarity ref_levenshtein ref_encoder
       [(lit "Ann", Fin 0); (lit "Zed", Fin 3); (lit "Anne", Fin 0)])
  = Some [NaN].
Proof. vm_compute. reflexivity. Qed.

Lemma confusion_score_formula_witness :
  (2 <= length kate_group)%nat
  /\ Forall (fun e => name e <> []) kate_group
  /\ Forall (fun e => nonneg_int (value e)) kate_group
  /\ Forall (ingested ref_similarity) kate_group
  /\ num_ltb (Fin 0) (Math_max (map value kate_group)) = true
  /\ exists c lo hi : Q,
       (Math_max (map complexity kate_group) = Fin c
        /\ In (Fin c) (map complexity kate_group)
        /\ Forall (fun x => num_le x (Fin c)) (map complexity kate_group))
       /\ (Math_min (map value kate_group) = Fin lo
           /\ In (Fin lo) (map value kate_group)
           /\ Forall (fun x => num_le (Fin lo) x) (map value kate_group))
       /\ (Math_max (map value kate_group) = Fin hi
           /\ In (Fin hi) (map value kate_group)
           /\ Forall (fun x => num_le x (Fin hi)) (map value kate_group))
       /\ 0 <= lo <= hi /\ 0 < hi
       /\ calculateOrthographicDiversity ref_levenshtein
            (map name kate_group)
          = diversity_spec ref_levenshtein (map name kate_group)
       /\ in01 (diversity_spec ref_levenshtein (map name kate_group))
       /\ calculateConfusionScore ref_levenshtein kate_group
          = num_add
              (num_add
                 (num_add
                    (num_mul
                       (min2 (Fin 1)
                          (num_div (num_of_nat (length kate_group)) (Fin 5)))
                       (Fin (3 # 10)))
                    (num_mul (min2 (Fin 1) (Fin c)) (Fin (4 # 10))))
                 (num_mul (num_sub (Fin 1) (num_div (Fin lo) (Fin hi)))
                    (Fin (2 # 10))))
              (num_mul (diversity_spec ref_levenshtein (map name kate_group))
                 (Fin (1 # 10)))
       /\ in01 (calculateConfusionScore ref_levenshtein kate_group).
Proof.
  assert (H1 : (2 <= length kate_group)%nat) by (simpl; lia).
  assert (H2 : Forall (fun e => name e <> []) kate_group)
    by (repeat constructor; discriminate).
  assert (H3 : Forall (fun e => nonneg_int (value e)) kate_group).
  { repeat constructor;
      [exists 10%Z | exists 7%Z | exists 3%Z]; split; try reflexivity; lia. }
  assert (H4 : Forall (ingested ref_similarity) kate_group)
    by (repeat constructor).
  assert (H5 : num_ltb (Fin 0) (Math_max (map value kate_group)) = true)
    by reflexivity.
  repeat (split; [assumption |]).
  exact (@confusion_score_formula ref_similarity ref_levenshtein
           ref_similarity_in01 ref_levenshtein_bound kate_group
           H1 H2 H3 H4 H5).
Defined.

Lemma confusion_score_reorder_witness :
  Permutation seven_group seven_group_swapped
  /\ firstn 5 (map name seven_group) = firstn 5 (map name seven_group_swapped)
  /\ num_eq (calculateConfusionScore ref_levenshtein seven_group)
       (calculateConfusionScore ref_levenshtein seven_group_swapped).
Proof.
  assert (H1 : Permutation seven_group seven_group_swapped).
  { unfold seven_group, seven_group_swapped.
    do 5 apply perm_skip. apply perm_swap. }
  assert (H2 : firstn 5 (map name seven_group)
               = firstn 5 (map name seven_group_swapped)) by reflexivity.
  split; [exact H1 |]. split; [exact H2 |].
  apply (@confusion_score_reorder ref_levenshtein seven_group
           seven_group_swapped H1 H2).
Defined.

Lemma rank_sorted_stable_witness :
  Forall (fun c => confusionScore c <> NaN) example_clusters
  /\ map phoneticCode (rank example_clusters)
     = [lit "K0RN|KTRN"; lit "PP|PP"; lit "TM|TM"]
  /\ Permutation (rank example_clusters) example_clusters.
Proof.
  assert (H : Forall (fun c => confusionScore c <> NaN) example_clusters).
  { repeat constructor; vm_compute; discriminate. }
  split; [exact H |]. split; [vm_compute; reflexivity |].
  apply (@rank_sorted_stable example_clusters H).
Defined.

Lemma rank_with_NaN_score_witness :
  analyse ref_similarity ref_levenshtein ref_encoder mixed_rows
  = Some (rank mixed_clusters)
  /\ (2 <= length mixed_clusters)%nat
  /\ Exists (fun c => confusionScore c = NaN) mixed_clusters
  /\ ~ StronglySorted
        (fun a b => num_le (confusionScore b) (confusionScore a))
        (rank mixed_clusters).
Proof.
  assert (H0 : analyse ref_similarity ref_levenshtein ref_encoder mixed_rows
               = Some (rank mixed_clusters)).
  { unfold analyse, mixed_clusters. rewrite phoneticMap_is_spec.
    reflexivity. }
  assert (H1 : (2 <= length mixed_clusters)%nat) by (vm_compute; lia).
  assert (H2 : Exists (fun c => confusionScore c = NaN) mixed_clusters).
  { apply Exists_exists. exists (nth 1 mixed_clusters (mkCluster ref_levenshtein [] [])).
    split; [right; left; reflexivity | reflexivity]. }
  split; [exact H0 |]. split; [exact H1 |]. split; [exact H2 |].
  exact (proj1 (proj2 (@rank_with_NaN_score mixed_clusters H1 H2))).
Defined.

(** * Further properties of the script *)

(** ** Reading the data *)

Lemma split_from_app (sep : codeunit) (a b piece : jsstring) :
  split_from sep (a ++ sep :: b) piece
  = split_from sep a piece ++ split_from sep b [].
Proof.
  revert piece. induction a as [| c a IH]; intros piece; simpl.
  - rewrite N.eqb_refl. reflexivity.
  - destruct (c =? sep)%N; rewrite IH; reflexivity.
Qed.

Lemma split_from_no_sep (sep : codeunit) (a piece : jsstring) :
  ~ In sep a -> split_from sep a piece = [piece ++ a].
Proof.
  revert piece. induction a as [| c a IH]; intros piece H; simpl.
  - rewrite app_nil_r. reflexivity.
  - destruct (c =? sep)%N eqn:E.
    + apply N.eqb_eq in E. subst. exfalso. apply H. left. reflexivity.
    + rewrite IH by (intros Hin; apply H; right; exact Hin).
      rewrite <- app_assoc. reflexivity.
Qed.

Lemma split_join (sep : codeunit) (pieces : list jsstring) :
  pieces <> [] -> Forall (fun piece => ~ In sep piece) pieces ->
  split sep (join [sep] pieces) = pieces.
Proof.
  intros Hne H. revert Hne.
  induction H as [| p rest Hp Hrest IH]; intros Hne;
    [exfalso; apply Hne; reflexivity |].
  destruct rest as [| p' rest].
  - simpl. unfold split. rewrite split_from_no_sep by exact Hp. reflexivity.
  - change (join [sep] (p :: p' :: rest))
      with (p ++ sep :: join [sep] (p' :: rest)).
    unfold split in *. rewrite split_from_app, split_from_no_sep by exact Hp.
    rewrite IH by discriminate. reflexivity.
Qed.

Lemma trim_start_nil_iff (s : jsstring) :
  trim_start s = [] <-> Forall (fun c => is_space c = true) s.
Proof.
  induction s as [| c s IH]; simpl.
  - split; auto.
  - destruct (is_space c) eqn:E.
    + rewrite IH. split; intros H; [constructor; auto | inversion H; auto].
    + split; [discriminate |]. intros H. inversion H; congruence.
Qed.

Lemma trim_start_suffix (s : jsstring) :
  exists spaces, s = spaces ++ trim_start s
                 /\ Forall (fun c => is_space c = true) spaces.
Proof.
  induction s as [| c s (spaces & Heq & Hsp)]; simpl.
  - exists []. split; auto.
  - destruct (is_space c) eqn:E.
    + exists (c :: spaces). split; [simpl; congruence | constructor; auto].
    + exists []. split; auto.
Qed.

(** A line is blank exactly when it holds nothing but white space. *)
Lemma not_blank_false_iff (line : jsstring) :
  not_blank line = false <-> Forall (fun c => is_space c = true) line.
Proof.
  unfold not_blank, trim. split.
  - intros H.
    destruct (rev (trim_start (rev (trim_start line)))) eqn:Hrev;
      [| discriminate].
    apply (f_equal (@rev codeunit)) in Hrev. rewrite rev_involutive in Hrev.
    simpl in Hrev. apply trim_start_nil_iff in Hrev.
    apply Forall_rev in Hrev. rewrite rev_involutive in Hrev.
    destruct (trim_start_suffix line) as (spaces & Heq & Hsp).
    rewrite Heq. apply Forall_app. split; assumption.
  - intros H. apply trim_start_nil_iff in H. rewrite H. reflexivity.
Qed.

Lemma not_blank_true (line : jsstring) (c : codeunit) :
  In c line -> is_space c = false -> not_blank line = true.
Proof.
  intros Hin Hc. destruct (not_blank line) eqn:E; auto.
  apply not_blank_false_iff in E. rewrite Forall_forall in E.
  rewrite (E c Hin) in Hc. discriminate.
Qed.

Lemma trim_start_spaces (spaces s : jsstring) :
  Forall (fun c => is_space c = true) spaces ->
  trim_start (spaces ++ s) = trim_start s.
Proof.
  induction 1 as [| c spaces Hc _ IH]; simpl; auto. rewrite Hc. exact IH.
Qed.

Lemma digits_of_uint_acc (d : Decimal.uint) (acc : positive) :
  fold_left (fun a c => (10 * a + (c - 48))%N)
    (lit (DecimalString.NilEmpty.string_of_uint d)) (N.pos acc)
  = N.pos (Pos.of_uint_acc d acc).
Proof.
  revert acc. induction d; intros acc; cbn -[N.mul N.add N.sub Pos.mul Pos.add];
    try reflexivity;
    match goal with
    | |- fold_left _ _ ?a = N.pos (Pos.of_uint_acc _ ?b) =>
        replace a with (N.pos b) by lia
    end; apply IHd.
Qed.

Lemma digits_of_uint (d : Decimal.uint) :
  fold_left (fun a c => (10 * a + (c - 48))%N)
    (lit (DecimalString.NilEmpty.string_of_uint d)) 0%N
  = Pos.of_uint d.
Proof.
  induction d; cbn -[N.mul N.add N.sub Pos.mul Pos.add]; try reflexivity;
    try exact IHd;
    match goal with
    | |- fold_left _ _ ?a = N.pos (Pos.of_uint_acc _ ?b) =>
        replace a with (N.pos b) by lia
    end; apply digits_of_uint_acc.
Qed.

Lemma is_digit_of_uint (d : Decimal.uint) :
  Forall (fun c => is_digit c = true)
    (lit (DecimalString.NilEmpty.string_of_uint d)).
Proof. induction d; cbn; constructor; auto. Qed.

Lemma decimal_unfold (n : N) :
  decimal n = lit (DecimalString.NilEmpty.string_of_uint (N.to_uint n))
  /\ decimal n <> [].
Proof.
  unfold decimal, DecimalString.NilZero.string_of_uint.
  destruct n as [| p]; [split; [reflexivity | discriminate] |].
  cbn [N.to_uint].
  pose proof (DecimalPos.Unsigned.to_uint_nonnil p) as Hp.
  destruct (Pos.to_uint p) eqn:E; try congruence;
    (split; [reflexivity | discriminate]).
Qed.

Lemma decimal_digits (n : N) : Forall (fun c => is_digit c = true) (decimal n).
Proof.
  destruct (decimal_unfold n) as (-> & _). apply is_digit_of_uint.
Qed.

(** Reading a decimal numeral gives the number back. *)
Lemma digits_value_decimal (n : N) : digits_value (decimal n) = n.
Proof.
  destruct (decimal_unfold n) as (-> & _). unfold digits_value.
  rewrite digits_of_uint. apply DecimalN.Unsigned.of_to.
Qed.

Lemma take_digits_app (ds rest : jsstring) :
  Forall (fun c => is_digit c = true) ds ->
  (forall c, hd_error rest = Some c -> is_digit c = false) ->
  take_digits (ds ++ rest) = ds.
Proof.
  intros Hds Hrest. induction Hds as [| c ds Hc _ IH]; cbn [app take_digits].
  - destruct rest as [| c rest]; auto. cbn [take_digits].
    rewrite (Hrest c eq_refl). reflexivity.
  - rewrite Hc, IH. reflexivity.
Qed.

Lemma digit_not_space_nor_sign (c : codeunit) :
  is_digit c = true ->
  is_space c = false /\ (c =? 45)%N = false /\ (c =? 43)%N = false
  /\ (c =? comma)%N = false /\ (c =? newline)%N = false.
Proof.
  unfold is_digit, is_space, in_range, comma, newline. intros H.
  apply andb_true_iff in H as (H1 & H2).
  apply N.leb_le in H1, H2.
  repeat split;
    repeat (apply orb_false_iff; split);
    try (apply andb_false_iff);
    try (apply N.eqb_neq; lia);
    try (left; apply N.leb_gt; lia); try (right; apply N.leb_gt; lia).
Qed.

Lemma parseInt10_spaces (spaces s : jsstring) :
  Forall (fun c => is_space c = true) spaces ->
  parseInt10 (spaces ++ s) = parseInt10 s.
Proof.
  intros H. unfold parseInt10.
  rewrite (@trim_start_spaces spaces s H). reflexivity.
Qed.

Lemma parseInt10_after_sign (negative : bool) (ds rest : jsstring) :
  ds <> [] -> Forall (fun c => is_digit c = true) ds ->
  (forall c, hd_error rest = Some c -> is_digit c = false) ->
  match take_digits (ds ++ rest) with
  | [] => NaN
  | ds' =>
      num_of_Z (if negative then (- Z.of_N (digits_value ds'))%Z
                else Z.of_N (digits_value ds'))
  end
  = num_of_Z (if negative then (- Z.of_N (digits_value ds))%Z
              else Z.of_N (digits_value ds)).
Proof.
  intros Hne Hds Hrest. rewrite (@take_digits_app ds rest Hds Hrest).
  destruct ds; [congruence | reflexivity].
Qed.

Lemma parseInt10_unsigned (ds rest : jsstring) :
  ds <> [] -> Forall (fun c => is_digit c = true) ds ->
  (forall c, hd_error rest = Some c -> is_digit c = false) ->
  parseInt10 (ds ++ rest) = num_of_Z (Z.of_N (digits_value ds)).
Proof.
  intros Hne Hds Hrest. unfold parseInt10. cbv zeta.
  destruct ds as [| c ds]; [congruence |].
  inversion Hds as [| ? ? Hc _]; subst.
  destruct (digit_not_space_nor_sign c Hc) as (Hsp & Hminus & Hplus & _).
  cbn [app trim_start]. rewrite Hsp, Hminus, Hplus. cbn [fst snd].
  apply (@parseInt10_after_sign false (c :: ds) rest); auto.
Qed.

Lemma parseInt10_signed (sign : codeunit) (ds rest : jsstring) :
  sign = 45%N \/ sign = 43%N ->
  ds <> [] -> Forall (fun c => is_digit c = true) ds ->
  (forall c, hd_error rest = Some c -> is_digit c = false) ->
  parseInt10 (sign :: ds ++ rest)
  = num_of_Z (if (sign =? 45)%N then (- Z.of_N (digits_value ds))%Z
              else Z.of_N (digits_value ds)).
Proof.
  intros Hsign Hne Hds Hrest. unfold parseInt10. cbv zeta.
  destruct Hsign as [-> | ->]; cbn [trim_start];
    change (is_space 45%N) with false; change (is_space 43%N) with false;
    cbn [N.eqb Pos.eqb fst snd];
    [apply (@parseInt10_after_sign true ds rest)
    | apply (@parseInt10_after_sign false ds rest)]; auto.
Qed.

(** X1: [parseInt] reads a decimal numeral, whatever white space comes
    before it and whatever text that does not start with a digit comes
    after it; a sign in front of the numeral is applied. *)
Theorem parseInt_reads_numeral (spaces rest : jsstring) (n : N) :
  (n <= 9007199254740992)%N ->
  Forall (fun c => is_space c = true) spaces ->
  (forall c, hd_error rest = Some c -> is_digit c = false) ->
  parseInt10 (spaces ++ decimal n ++ rest) = num_of_Z (Z.of_N n)
  /\ parseInt10 (spaces ++ 43%N :: decimal n ++ rest) = num_of_Z (Z.of_N n)
  /\ parseInt10 (spaces ++ 45%N :: decimal n ++ rest)
     = num_of_Z (- Z.of_N n).
Proof.
  intros _ Hsp Hrest.
  rewrite (@parseInt10_spaces spaces (decimal n ++ rest) Hsp).
  rewrite (@parseInt10_spaces spaces (43%N :: decimal n ++ rest) Hsp).
  rewrite (@parseInt10_spaces spaces (45%N :: decimal n ++ rest) Hsp).
  destruct (decimal_unfold n) as (_ & Hne).
  pose proof (decimal_digits n) as Hds.
  pose proof (@parseInt10_unsigned (decimal n) rest Hne Hds Hrest) as H0.
  pose proof (@parseInt10_signed 43%N (decimal n) rest (or_intror eq_refl)
                Hne Hds Hrest) as H1.
  pose proof (@parseInt10_signed 45%N (decimal n) rest (or_introl eq_refl)
                Hne Hds Hrest) as H2.
  cbn [N.eqb Pos.eqb] in H1, H2.
  rewrite digits_value_decimal in H0, H1, H2.
  split; [exact H0 | split; [exact H1 | exact H2]].
Qed.

Lemma split_from_pieces (P : codeunit -> Prop) (sep : codeunit)
    (s piece : jsstring) :
  Forall P s -> Forall P piece ->
  Forall (Forall P) (split_from sep s piece).
Proof.
  intros Hs. revert piece. induction Hs as [| c s Hc _ IH]; intros piece Hp;
    cbn [split_from].
  - constructor; auto.
  - destruct (c =? sep)%N.
    + constructor; auto.
    + apply IH. apply Forall_app. split; auto.
Qed.

Lemma split_from_free (sep : codeunit) (s piece : jsstring) :
  ~ In sep piece ->
  Forall (fun p => ~ In sep p) (split_from sep s piece).
Proof.
  revert piece. induction s as [| c s IH]; intros piece Hp; cbn [split_from].
  - constructor; auto.
  - destruct (c =? sep)%N eqn:E.
    + constructor; auto.
    + apply IH. rewrite in_app_iff. apply N.eqb_neq in E.
      intros [H | [H | []]]; [auto | congruence].
Qed.

Lemma split_from_nonempty (sep : codeunit) (s piece : jsstring) :
  split_from sep s piece <> [].
Proof.
  revert piece. induction s as [| c s IH]; intros piece; cbn [split_from];
    [discriminate |].
  destruct (c =? sep)%N; [discriminate | apply IH].
Qed.

Lemma split_from_length (sep : codeunit) (s piece : jsstring) :
  length (split_from sep s piece) = S (count_occ N.eq_dec s sep).
Proof.
  revert piece. induction s as [| c s IH]; intros piece; [reflexivity |].
  cbn [split_from count_occ].
  destruct (N.eqb_spec c sep) as [E | E].
  - destruct (N.eq_dec c sep) as [_ | N]; [| contradiction].
    cbn [length]. rewrite IH. reflexivity.
  - destruct (N.eq_dec c sep) as [E' | _]; [contradiction |]. apply IH.
Qed.

(** The first piece of a split ends at the first separator, or is the whole
    string when there is none. *)
Lemma split_from_first (sep : codeunit) (s piece : jsstring) :
  (~ In sep s /\ split_from sep s piece = [piece ++ s])
  \/ (exists head rest,
         ~ In sep head /\ s = head ++ sep :: rest
         /\ split_from sep s piece = (piece ++ head) :: split_from sep rest []).
Proof.
  revert piece. induction s as [| c s IH]; intros piece.
  - left. split; [intros [] |]. cbn. rewrite app_nil_r. reflexivity.
  - cbn [split_from]. destruct (N.eqb_spec c sep) as [E | E].
    + right. exists [], s. subst c. rewrite app_nil_r.
      split; [intros [] |]. split; reflexivity.
    + destruct (IH (piece ++ [c])) as [(Hno & Hs) | (head & rest & Hno & Hs & Hsp)].
      * left. split.
        -- intros [H | H]; [exact (E H) | exact (Hno H)].
        -- rewrite Hs, <- app_assoc. reflexivity.
      * right. exists (c :: head), rest. split.
        -- intros [H | H]; [exact (E H) | exact (Hno H)].
        -- split; [rewrite Hs; reflexivity |].
           rewrite Hsp, <- app_assoc. reflexivity.
Qed.

(** X2: what the rows read from the file can be: there are at most as many
    as the file has lines (one more than its newlines); every row is read
    from a line of the file that is not blank; its name is that line up to
    its first comma, so holds neither a comma nor a newline; and a line
    without a comma gives the value NaN. *)
Theorem rows_of_data_shape (data : jsstring) :
  (length (rows_of_data data) <= S (count_occ N.eq_dec data newline))%nat
  /\ Forall (fun row =>
              ~ In comma (fst row) /\ ~ In newline (fst row)
              /\ exists line,
                   In line (split newline data) /\ not_blank line = true
                   /\ row = row_of_line line
                   /\ ((line = fst row /\ snd row = NaN)
                       \/ exists rest, line = fst row ++ comma :: rest))
       (rows_of_data data).
Proof.
  split.
  - unfold rows_of_data, split. rewrite length_map.
    rewrite <- (split_from_length newline data []).
    apply filter_length_le.
  - unfold rows_of_data. apply Forall_map.
    apply Forall_forall. intros line Hin.
    apply filter_In in Hin as (Hin & Hnb).
    assert (Hline : ~ In newline line).
    { pose proof (@split_from_free newline data [] (fun H => H)) as Hfree.
      rewrite Forall_forall in Hfree. exact (Hfree line Hin). }
    assert (Hrow :
              (~ In comma line /\ row_of_line line = (line, NaN))
              \/ (exists head rest,
                     ~ In comma head /\ line = head ++ comma :: rest
                     /\ fst (row_of_line line) = head)).
    { unfold row_of_line, split.
      destruct (split_from_first comma line [])
        as [(Hno & Hs) | (head & rest & Hno & Hs & Hsp)].
      - left. split; [exact Hno |]. rewrite Hs. reflexivity.
      - right. exists head, rest. split; [exact Hno |].
        split; [exact Hs |]. rewrite Hsp. reflexivity. }
    destruct Hrow as [(Hno & Hr) | (head & rest & Hno & Hs & Hf)].
    + rewrite Hr. cbn [fst snd]. split; [exact Hno |]. split; [exact Hline |].
      exists line. split; [exact Hin |]. split; [exact Hnb |].
      split; [symmetry; exact Hr |]. left. split; reflexivity.
    + destruct (row_of_line line) as (nm, v) eqn:Er.
      cbn [fst snd] in *. subst nm. split; [exact Hno |]. split.
      * intros H. apply Hline. rewrite Hs. apply in_or_app. left. exact H.
      * exists line. split; [exact Hin |]. split; [exact Hnb |].
        split; [symmetry; exact Er |]. right. exists rest. exact Hs.
Qed.

(** X3: a line without a comma gives the whole line as name and the value
    NaN; of a line with more commas, only the fields before the second one
    are read. *)
Theorem row_of_line_fields :
  (forall line, ~ In comma line -> row_of_line line = (line, NaN))
  /\ (forall name value rest,
         ~ In comma name -> ~ In comma value ->
         row_of_line (name ++ comma :: value) = (name, parseInt10 value)
         /\ row_of_line (name ++ comma :: value ++ comma :: rest)
            = (name, parseInt10 value)).
Proof.
  split.
  - intros line H. unfold row_of_line, split.
    rewrite split_from_no_sep by exact H. reflexivity.
  - intros name value rest Hn Hv. unfold row_of_line, split. split.
    + rewrite split_from_app, !split_from_no_sep by assumption. reflexivity.
    + rewrite split_from_app, split_from_app, !split_from_no_sep by assumption.
      reflexivity.
Qed.

Lemma line_of_no_newline (row : jsstring * N) :
  ~ In newline (fst row) -> ~ In newline (line_of row).
Proof.
  intros H. unfold line_of. rewrite !in_app_iff.
  intros [Hin | [[E | []] | Hin]]; [auto | discriminate |].
  pose proof (decimal_digits (snd row)) as Hd. rewrite Forall_forall in Hd.
  destruct (digit_not_space_nor_sign _ (Hd _ Hin)) as (_ & _ & _ & _ & Hnl).
  rewrite N.eqb_refl in Hnl. discriminate.
Qed.

Lemma line_of_not_blank (row : jsstring * N) : not_blank (line_of row) = true.
Proof.
  apply (@not_blank_true (line_of row) comma); [| reflexivity].
  unfold line_of. apply in_or_app. right. left. reflexivity.
Qed.

Lemma row_of_line_of (row : jsstring * N) :
  ~ In comma (fst row) ->
  row_of_line (line_of row) = (fst row, num_of_Z (Z.of_N (snd row))).
Proof.
  intros H. unfold row_of_line, line_of, split. cbn [app].
  destruct (decimal_unfold (snd row)) as (_ & Hne).
  pose proof (decimal_digits (snd row)) as Hd.
  rewrite split_from_app, split_from_no_sep by exact H.
  rewrite split_from_no_sep.
  - cbn [app hd nth_error]. f_equal. unfold parseInt_field.
    pose proof (@parseInt10_unsigned (decimal (snd row)) [] Hne Hd) as Hp.
    rewrite app_nil_r, digits_value_decimal in Hp. apply Hp.
    intros c Hc. discriminate.
  - intros Hin. rewrite Forall_forall in Hd.
    destruct (digit_not_space_nor_sign _ (Hd _ Hin)) as (_ & _ & _ & Hc & _).
    rewrite N.eqb_refl in Hc. discriminate.
Qed.

Lemma rows_of_lines_written (rows : list (jsstring * N)) :
  Forall (fun row => ~ In comma (fst row) /\ ~ In newline (fst row)) rows ->
  rows_of_data (join [newline] (map line_of rows))
  = map (fun row => (fst row, num_of_Z (Z.of_N (snd row)))) rows.
Proof.
  intros H. unfold rows_of_data.
  destruct rows as [| row rows]; [reflexivity |].
  rewrite split_join.
  - assert (Hkeep : filter not_blank (map line_of (row :: rows))
                    = map line_of (row :: rows)).
    { generalize (row :: rows). intros l. induction l as [| r l IH]; auto.
      cbn [map filter]. rewrite line_of_not_blank, IH. reflexivity. }
    rewrite Hkeep, map_map. apply map_ext_in. intros r Hr.
    rewrite Forall_forall in H. apply row_of_line_of. apply (H r Hr).
  - discriminate.
  - apply Forall_map. apply Forall_impl with (2 := H).
    intros r (_ & Hr). apply line_of_no_newline. exact Hr.
Qed.

(** X4: a file written with one line [name,numeral] per row is read back as
    these rows, for names without comma or newline and values up to 2^53. *)
Theorem rows_of_written_data (rows : list (jsstring * N)) :
  Forall (fun row => ~ In comma (fst row) /\ ~ In newline (fst row)
                     /\ (snd row <= 9007199254740992)%N) rows ->
  rows_of_data (join [newline] (map line_of rows))
  = map (fun row => (fst row, num_of_Z (Z.of_N (snd row)))) rows.
Proof.
  intros H. apply rows_of_lines_written.
  apply Forall_impl with (2 := H). intros r (H1 & H2 & _). auto.
Qed.

(** X5: the file is read line by line: the rows of two texts joined by a
    newline are the rows of the first followed by the rows of the second; a
    text of white space only gives no row, so blank lines and a final
    newline change nothing. *)
Theorem rows_of_data_lines :
  (forall a b,
      rows_of_data (a ++ newline :: b) = rows_of_data a ++ rows_of_data b)
  /\ (forall b, Forall (fun c => is_space c = true) b -> rows_of_data b = [])
  /\ (forall a b,
         Forall (fun c => is_space c = true) b ->
         rows_of_data (a ++ newline :: b) = rows_of_data a
         /\ rows_of_data (b ++ newline :: a) = rows_of_data a).
Proof.
  assert (Happ : forall a b,
             rows_of_data (a ++ newline :: b)
             = rows_of_data a ++ rows_of_data b).
  { intros a b. unfold rows_of_data, split.
    rewrite split_from_app, filter_app, map_app. reflexivity. }
  assert (Hblank : forall b, Forall (fun c => is_space c = true) b ->
                             rows_of_data b = []).
  { intros b Hb. unfold rows_of_data, split.
    rewrite filter_all_false; [reflexivity |].
    apply Forall_impl with (2 := split_from_pieces newline Hb (Forall_nil _)).
    intros line Hline. apply not_blank_false_iff. exact Hline. }
  split; [exact Happ |]. split; [exact Hblank |].
  intros a b Hb. rewrite !Happ, (Hblank b Hb), app_nil_r. auto.
Qed.

(** ** The factors of [calculateComplexity] *)

Lemma vowel_scan_count (s : jsstring) :
  forall run,
    (2 * length (vowel_scan s run)
     <= length s + match run with [] => 1 | _ => 2 end)%nat.
Proof.
  induction s as [| c s IH]; intros run; cbn [vowel_scan length].
  - destruct run; simpl; lia.
  - destruct (is_vowel c).
    + specialize (IH (run ++ [c])).
      destruct (run ++ [c]) eqn:E; [destruct run; discriminate |].
      destruct run; cbv iota in *; lia.
    + specialize (IH []). destruct run; cbn [length]; cbv iota in *; lia.
Qed.

Lemma vowel_scan_concat (s : jsstring) :
  forall run, concat (vowel_scan s run) = run ++ filter is_vowel s.
Proof.
  induction s as [| c s IH]; intros run; cbn [vowel_scan filter].
  - destruct run; simpl; rewrite ?app_nil_r; reflexivity.
  - destruct (is_vowel c).
    + rewrite IH, <- app_assoc. reflexivity.
    + destruct run; cbn [concat]; rewrite IH; reflexivity.
Qed.

Lemma vowel_scan_runs (s : jsstring) :
  forall run,
    Forall (fun c => is_vowel c = true) run ->
    Forall (fun r => r <> [] /\ Forall (fun c => is_vowel c = true) r)
      (vowel_scan s run).
Proof.
  induction s as [| c s IH]; intros run Hrun; cbn [vowel_scan].
  - destruct run; constructor; auto. split; [discriminate | exact Hrun].
  - destruct (is_vowel c) eqn:E.
    + apply IH. apply Forall_app. split; auto.
    + destruct run; [apply IH; constructor |].
      constructor; [split; [discriminate | exact Hrun] |].
      apply IH. constructor.
Qed.

Lemma or_empty_match_vowels (s : jsstring) :
  or_empty (match_vowels s) = vowel_scan s [].
Proof. unfold match_vowels. destruct (vowel_scan s []); reflexivity. Qed.

(** X6: the matches counted as syllables are non-empty runs of vowels which,
    put end to end, are the vowels of the name in order; there are at most
    (length + 1) / 2 of them; a name without a vowel has no match (the
    [null] of [match] is replaced by an empty list) and the factor 0. *)
Theorem syllable_runs (jw : jsstring -> jsstring -> num) (s : jsstring) :
  let runs := or_empty (match_vowels s) in
  Forall (fun r => r <> [] /\ Forall (fun c => is_vowel c = true) r) runs
  /\ concat runs = filter is_vowel s
  /\ (2 * length runs <= length s + 1)%nat
  /\ (Forall (fun c => is_vowel c = false) s ->
      match_vowels s = None
      /\ num_eq (ComplexityFactors.syllableCount (complexityFactors jw s))
           (Fin 0)).
Proof.
  cbv zeta. rewrite or_empty_match_vowels.
  split; [apply vowel_scan_runs; constructor |].
  split; [apply (vowel_scan_concat s []) |].
  split; [apply (vowel_scan_count s []) |].
  intros Hnone.
  assert (Hscan : vowel_scan s [] = []).
  { pose proof (vowel_scan_concat s []) as Hc.
    pose proof (@vowel_scan_runs s [] (Forall_nil _)) as Hr.
    rewrite filter_all_false in Hc by exact Hnone.
    destruct (vowel_scan s []) as [| r rest]; auto.
    inversion Hr as [| ? ? (Hne & _) _]; subst.
    destruct r; [congruence | discriminate]. }
  assert (Hm : match_vowels s = None).
  { unfold match_vowels. rewrite Hscan. reflexivity. }
  split; [exact Hm |].
  rewrite syllable_factor_value, Hm. reflexivity.
Qed.

Lemma spread_cons_cons (c d : codeunit) (t : jsstring) :
  spread (c :: d :: t)
  = if is_high_surrogate c && is_low_surrogate d
    then [c; d] :: spread t
    else [c] :: spread (d :: t).
Proof. reflexivity. Qed.

Lemma spread_length (n : nat) :
  forall s, (length s <= n)%nat -> (length (spread s) <= length s)%nat.
Proof.
  induction n as [| n IH]; intros s Hs.
  - destruct s; [simpl; lia | simpl in Hs; lia].
  - destruct s as [| c [| d t]]; [simpl; lia | simpl; lia |].
    rewrite spread_cons_cons. cbn [length] in Hs.
    destruct (is_high_surrogate c && is_low_surrogate d).
    + specialize (IH t). cbn [length]. lia.
    + specialize (IH (d :: t)). cbn [length] in *. lia.
Qed.

Lemma spread_units (s : jsstring) :
  Forall (fun c => is_high_surrogate c = false) s ->
  spread s = map (fun c => [c]) s.
Proof.
  induction 1 as [| c s Hc Hs IH]; [reflexivity |].
  destruct s as [| d t]; [reflexivity |].
  rewrite spread_cons_cons, Hc. cbn [andb map]. rewrite IH. reflexivity.
Qed.

(** X7: the characters counted as non-standard are never more than the code
    units of the name, and a name of ASCII letters only has none: its factor
    is 0. *)
Theorem non_standard_count (jw : jsstring -> jsstring -> num) (s : jsstring) :
  let odd := length (filter (fun c => negb (test_a_z (toLowerCase c)))
                       (spread s)) in
  (odd <= length s)%nat
  /\ (Forall (fun c => in_range 97 122 c || in_range 65 90 c = true) s ->
      odd = 0%nat
      /\ num_eq (ComplexityFactors.nonStandardChars (complexityFactors jw s))
           (Fin 0)).
Proof.
  cbv zeta. split.
  - etransitivity; [apply filter_length_le |].
    apply (spread_length (n := length s)). lia.
  - intros Hletters.
    assert (Hodd : filter (fun c => negb (test_a_z (toLowerCase c))) (spread s)
                   = []).
    { rewrite spread_units.
      - apply filter_all_false. apply Forall_map.
        apply Forall_impl with (2 := Hletters). intros c Hc.
        apply negb_false_iff. cbn [toLowerCase flat_map]. rewrite app_nil_r.
        unfold lower_unit. apply orb_true_iff in Hc as [Hc | Hc].
        + assert (E : in_range 65 90 c = false).
          { unfold in_range in *. apply andb_true_iff in Hc as (H1 & H2).
            apply N.leb_le in H1. apply andb_false_iff. right.
            apply N.leb_gt. lia. }
          rewrite E.
          assert (E1 : (c =? 304)%N = false).
          { unfold in_range in Hc. apply andb_true_iff in Hc as (_ & H2).
            apply N.leb_le in H2. apply N.eqb_neq. lia. }
          assert (E2 : (c =? 8490)%N = false).
          { unfold in_range in Hc. apply andb_true_iff in Hc as (_ & H2).
            apply N.leb_le in H2. apply N.eqb_neq. lia. }
          rewrite E1, E2. cbn [test_a_z existsb]. rewrite Hc. reflexivity.
        + rewrite Hc. cbn [test_a_z existsb].
          unfold in_range in *. apply andb_true_iff in Hc as (H1 & H2).
          apply N.leb_le in H1, H2. apply orb_true_iff. left.
          apply andb_true_iff. split; apply N.leb_le; lia.
      - apply Forall_impl with (2 := Hletters). intros c Hc.
        unfold is_high_surrogate, in_range in *.
        apply andb_false_iff. left. apply N.leb_gt.
        apply orb_true_iff in Hc as [Hc | Hc];
          apply andb_true_iff in Hc as (_ & H2); apply N.leb_le in H2; lia. }
    rewrite non_standard_factor_value, Hodd. split; reflexivity.
Qed.

Lemma length_factor_value (jw : jsstring -> jsstring -> num) (s : jsstring) :
  exists q,
    ComplexityFactors.length (complexityFactors jw s) = Fin q
    /\ q == Qmin 1 (inject_Z (Z.of_nat (length s)) / 10).
Proof.
  cbn [complexityFactors ComplexityFactors.length]. unfold num_of_nat.
  rewrite num_div_Fin_pos by lra. apply min2_Fin.
Qed.

(** X8: the report counts an entry as difficult (complexity above 0.6) as
    soon as its name has seven code units or more, or its similarity to
    "standard" is below 0.4. *)
Theorem difficult_by_length_or_spelling (jw : jsstring -> jsstring -> num)
    (e : Entry) :
  ingested jw e ->
  in01 (jw (name e) (lit "standard")) ->
  (7 <= length (name e))%nat
  \/ num_ltb (jw (name e) (lit "standard")) (Fin (4 # 10)) = true ->
  difficult e = true.
Proof.
  intros Hing Hjw Hcase. unfold difficult, num_gtb. rewrite Hing.
  rewrite calculateComplexity_unfold. cbv zeta.
  destruct (length_factor_value jw (name e)) as (l & El & Hl).
  pose proof (length_factor_in01 jw (name e)) as Bl.
  rewrite El in *. cbn [in01] in Bl.
  rewrite syllable_factor_value, non_standard_factor_value.
  cbn [complexityFactors ComplexityFactors.orthoNeighbors
         ComplexityFactors.phoneticDensity].
  destruct (jw (name e) (lit "standard")) as [j | | |];
    cbn [in01] in Hjw; try contradiction.
  cbn [num_sub num_neg num_add]. apply num_ltb_Fin.
  pose proof (inject_nat_nonneg (length (or_empty (match_vowels (name e))))).
  pose proof (inject_nat_nonneg
    (length (filter (fun c => negb (test_a_z (toLowerCase c)))
               (spread (name e))))).
  destruct Hcase as [Hlen | Hsim].
  - assert (Hl7 : 7 # 10 <= l).
    { rewrite Hl. apply Q.min_glb; [lra |].
      apply inject_nat_le in Hlen. change (inject_Z (Z.of_nat 7)) with 7 in Hlen.
      q_prep. lra. }
    q_prep. lra.
  - apply num_ltb_Fin in Hsim. q_prep. lra.
Qed.

(** ** [calculateOrthographicDiversity], further *)

(** X9: the loops compare every pair of the first five names once: for [k]
    names sampled that is [k (k - 1) / 2] calls of the edit distance, never
    more than 10. *)
Theorem diversity_comparisons (lev : jsstring -> jsstring -> nat)
    (names : list jsstring) :
  let k := Nat.min 5 (length names) in
  let st := diversity_loops lev (firstn 5 names) in
  (2 * comparisons st = k * (k - 1))%nat /\ (comparisons st <= 10)%nat.
Proof.
  cbv zeta. rewrite diversity_loops_pairs. cbn [comparisons].
  pose proof (pairs_length (firstn 5 names)) as H.
  rewrite length_firstn in H. split; [exact H |].
  destruct (Nat.min_spec 5 (length names)) as [(_ & E) | (Hle & E)];
    rewrite E in H; [lia | nia].
Qed.

Lemma fold_add_zero (xs : list num) :
  Forall (fun v => num_eq v (Fin 0)) xs ->
  forall a, exists s, fold_left num_add xs (Fin a) = Fin s /\ s == a.
Proof.
  induction 1 as [| v xs Hv _ IH]; intros a; cbn [fold_left].
  - exists a. split; reflexivity.
  - destruct v as [q | | |]; cbn [num_eq] in Hv; try contradiction.
    destruct (IH (a + q)) as (s & Hs & Es). exists s. split; [exact Hs |].
    rewrite Es, Hv. ring.
Qed.

Lemma fold_add_NaN (xs : list num) :
  In NaN xs -> forall a, fold_left num_add xs a = NaN.
Proof.
  induction xs as [| v xs IH]; intros Hin a; [contradiction |].
  cbn [fold_left]. destruct Hin as [-> | Hin]; [| apply IH; exact Hin].
  rewrite num_add_NaN_r. clear. induction xs as [| v xs IH]; auto.
Qed.

(** X10: names that are all the same non-empty string have diversity 0,
    for an edit distance that is 0 between a string and itself. *)
Theorem diversity_same_names (lev : jsstring -> jsstring -> nat)
    (x : jsstring) (names : list jsstring) :
  (forall a, lev a a = 0%nat) ->
  x <> [] ->
  Forall (fun n => n = x) names ->
  num_eq (calculateOrthographicDiversity lev names) (Fin 0).
Proof.
  intros Hlev Hx Hall. rewrite diversity_is_spec. unfold diversity_spec.
  cbv zeta.
  assert (Hps : Forall (fun v => num_eq v (Fin 0))
                  (map (fun p => normalised_distance lev (fst p) (snd p))
                     (pairs (firstn 5 names)))).
  { apply Forall_map. apply Forall_forall. intros (a, b) Hin.
    apply pairs_In_both in Hin as (Ha & Hb).
    apply In_firstn in Ha, Hb. rewrite Forall_forall in Hall.
    rewrite (Hall a Ha), (Hall b Hb). cbn [fst snd].
    unfold normalised_distance, num_of_nat. rewrite Hlev, Nat.max_id.
    rewrite num_div_Fin_pos.
    - cbn [num_eq]. change (inject_Z (Z.of_nat 0)) with 0. field.
      intros E. destruct x; [congruence |].
      cbn [length] in E. rewrite Nat2Z.inj_succ in E.
      unfold Qeq in E. simpl in E. lia.
    - change 0 with (inject_Z (Z.of_nat 0)). apply inject_nat_lt.
      destruct x; [congruence | simpl; lia]. }
  revert Hps. generalize (pairs (firstn 5 names)). intros ps Hps.
  destruct ps as [| p ps]; [reflexivity |].
  destruct (fold_add_zero Hps 0) as (s & -> & Hs).
  unfold num_of_nat. rewrite num_div_Fin_pos.
  - cbn [num_eq]. rewrite Hs. field.
    intros E. cbn [length] in E. rewrite Nat2Z.inj_succ in E.
    unfold Qeq in E. simpl in E. lia.
  - change 0 with (inject_Z (Z.of_nat 0)). apply inject_nat_lt. simpl. lia.
Qed.

(** X11: for non-empty names and an edit distance bounded by the longer
    length, the diversity lies in the unit interval. *)
Theorem diversity_unit_interval (lev : jsstring -> jsstring -> nat)
    (names : list jsstring) :
  (forall a b, (lev a b <= Nat.max (length a) (length b))%nat) ->
  Forall (fun n => n <> []) names ->
  in01 (calculateOrthographicDiversity lev names).
Proof. intros Hlev Hne. apply (@diversity_in01 lev Hlev names Hne). Qed.

(** X12: two empty names among the first five make the diversity NaN (the
    distance 0 is divided by the length 0), for an edit distance that is 0
    between two empty strings. *)
Theorem diversity_empty_names (lev : jsstring -> jsstring -> nat)
    (names : list jsstring) (i j : nat) :
  lev [] [] = 0%nat ->
  (i < j)%nat ->
  nth_error (firstn 5 names) i = Some [] ->
  nth_error (firstn 5 names) j = Some [] ->
  calculateOrthographicDiversity lev names = NaN.
Proof.
  intros Hlev Hij Hi Hj. rewrite diversity_is_spec. unfold diversity_spec.
  cbv zeta.
  assert (Hin : In ([], []) (pairs (firstn 5 names))).
  { apply pairs_In. exists i, j. auto. }
  assert (Hnan : In NaN (map (fun p => normalised_distance lev (fst p) (snd p))
                           (pairs (firstn 5 names)))).
  { apply in_map_iff. exists ([], []). split; [| exact Hin].
    unfold normalised_distance. cbn [fst snd length]. rewrite Hlev.
    reflexivity. }
  revert Hin Hnan. generalize (pairs (firstn 5 names)). intros ps Hin Hnan.
  destruct ps as [| p ps]; [contradiction |].
  rewrite (fold_add_NaN _ Hnan). reflexivity.
Qed.

(** ** [calculateConfusionScore], further *)

Lemma min2_NaN_r (a : num) : min2 a NaN = NaN.
Proof. destruct a; reflexivity. Qed.

Lemma fold_min2_NaN (xs : list num) :
  In NaN xs -> forall a, fold_left min2 xs a = NaN.
Proof.
  induction xs as [| v xs IH]; intros Hin a; [contradiction |].
  cbn [fold_left]. destruct Hin as [-> | Hin]; [| apply IH; exact Hin].
  rewrite min2_NaN_r. clear. induction xs as [| v xs IH]; auto.
Qed.

(** X13: one entry whose value is NaN (a line without a number) makes the
    score of its whole group NaN. *)
Theorem confusion_score_NaN_value (lev : jsstring -> jsstring -> nat)
    (group : list Entry) (e : Entry) :
  In e group -> value e = NaN ->
  calculateConfusionScore lev group = NaN.
Proof.
  intros Hin Hv.
  assert (Hmin : Math_min (map value group) = NaN).
  { apply fold_min2_NaN. rewrite <- Hv. apply in_map. exact Hin. }
  unfold calculateConfusionScore. cbv zeta.
  cbn [confusionFactors ConfusionFactors.valueSpread].
  rewrite Hmin. cbn [num_div num_sub num_neg].
  change (num_add (Fin 1) NaN) with NaN.
  rewrite num_mul_NaN_l, num_add_NaN_r. reflexivity.
Qed.

(** X14: for values that are integers, the least value [lo] and the largest
    [hi] that [Math.min] and [Math.max] return are values of the group and
    bound all of them; when [hi] is not 0 the value spread is a number: 0
    when all values are equal, 1 when the least is 0, within the unit
    interval when no value is negative, at least 1 when the least is
    negative and the largest positive, and at most 0 when all values are
    negative. *)
Theorem value_spread_cases (lev : jsstring -> jsstring -> nat)
    (group : list Entry) :
  group <> [] ->
  Forall (fun e => exists z : Z, value e = num_of_Z z) group ->
  exists lo hi : Q,
    (Math_min (map value group) = Fin lo
     /\ In (Fin lo) (map value group)
     /\ Forall (fun x => num_le (Fin lo) x) (map value group))
    /\ (Math_max (map value group) = Fin hi
        /\ In (Fin hi) (map value group)
        /\ Forall (fun x => num_le x (Fin hi)) (map value group))
    /\ lo <= hi
    /\ (~ hi == 0 ->
        exists v : Q,
          ConfusionFactors.valueSpread (confusionFactors lev group) = Fin v
          /\ (lo == hi -> v == 0)
          /\ (lo == 0 -> v == 1)
          /\ (0 <= lo -> 0 <= v <= 1)
          /\ (lo < 0 -> 0 < hi -> 1 <= v)
          /\ (hi < 0 -> v <= 0)).
Proof.
  intros Hne Hint.
  assert (Hne' : map value group <> []).
  { destruct group; [congruence | discriminate]. }
  assert (Hfin' : Forall (fun v => exists q, v = Fin q) (map value group)).
  { apply Forall_map. apply Forall_impl with (2 := Hint).
    intros e (z & ->). eexists; reflexivity. }
  destruct (Math_min_Fin Hne' Hfin') as (lo & Elo & Hloin & Hloall).
  destruct (Math_max_Fin Hne' Hfin') as (hi & Ehi & Hhiin & Hhiall).
  assert (Hle : lo <= hi).
  { rewrite Forall_forall in Hloall. apply (Hloall _ Hhiin). }
  exists lo, hi. split; [auto |]. split; [auto |].
  split; [exact Hle |]. intros Hhi.
  cbn [confusionFactors ConfusionFactors.valueSpread]. rewrite Elo, Ehi.
  cbn [num_div]. destruct (Qcompare_spec hi 0) as [E | Hneg | Hpos];
    [contradiction | |]; cbn [num_sub num_neg num_add];
    eexists; (split; [reflexivity |]).
  - (* the largest value is negative: so is the least *)
    split; [intros E; rewrite E; field; lra |].
    split; [intros E; lra |].
    split; [intros H; lra |]. split; [intros _ H; lra |].
    intros _.
    assert (R : 1 <= lo / hi).
    { setoid_replace (lo / hi) with ((- lo) / (- hi)) by (field; lra).
      apply Qle_shift_div_l; lra. }
    revert R. generalize (lo / hi). intros t R. lra.
  - split; [intros E; rewrite E; field; lra |].
    split; [intros E; rewrite E; field; lra |].
    split; [| split; [| intros H; lra]].
    + intros Hlo. pose proof (@ratio_in01 lo hi Hpos (conj Hlo Hle)) as R.
      revert R. generalize (lo / hi). intros t R. lra.
    + intros Hlo _.
      assert (R : lo / hi < 0).
      { apply Qlt_shift_div_r; lra. }
      revert R. generalize (lo / hi). intros t R. lra.
Qed.

(** ** [phoneticMap], further *)

(** X15: looking up the code of an entry of the input gives the bucket that
    holds it; a code that no entry has is absent from the index. *)
Theorem phoneticMap_lookup (dm : jsstring -> jsstring * jsstring)
    (es : list Entry) :
  exists m,
    phoneticMap dm es = Some m
    /\ (forall e, In e es ->
                  exists bucket,
                    map_get m (code_of dm e) = Some bucket /\ In e bucket)
    /\ (forall k, (forall e, In e es -> code_of dm e <> k) ->
                  map_get m k = None /\ map_has m k = false).
Proof.
  exists (index_spec dm es). split; [apply phoneticMap_is_spec |]. split.
  - intros e He. exists (bucket_of dm es (code_of dm e)). split.
    + unfold index_spec. apply map_get_tabulate_in.
      apply first_occurrences_In. apply in_map. exact He.
    + apply bucket_members. auto.
  - intros k Hk.
    assert (Hget : map_get (index_spec dm es) k = None).
    { unfold index_spec. apply map_get_tabulate_out.
      rewrite first_occurrences_In, in_map_iff.
      intros (e & Hcode & He). exact (Hk e He Hcode). }
    split; [exact Hget |]. unfold map_has. rewrite Hget. reflexivity.
Qed.

Lemma filter_filter (A : Type) (p q : A -> bool) (l : list A) :
  filter p (filter q l) = filter (fun a => q a && p a) l.
Proof.
  induction l as [| a l IH]; simpl; auto.
  destruct (q a); simpl; [destruct (p a) |]; rewrite IH; reflexivity.
Qed.

Lemma first_occurrences_app (l l' : list jsstring) :
  first_occurrences (l ++ l')
  = first_occurrences l
    ++ filter (fun k => negb (existsb (str_eqb k) l)) (first_occurrences l').
Proof.
  induction l as [| a l IH]; cbn [app first_occurrences].
  - cbn [existsb negb]. symmetry.
    clear. induction (first_occurrences l'); simpl; congruence.
  - rewrite IH, filter_app, filter_filter. cbn [app]. f_equal. f_equal.
    apply filter_ext. intros k. cbn [existsb].
    assert (E : str_eqb k a = str_eqb a k).
    { destruct (str_eqb a k) eqn:E1.
      - apply str_eqb_eq in E1. subst. apply str_eqb_refl.
      - apply str_eqb_neq in E1. apply str_eqb_neq. congruence. }
    rewrite E. destruct (str_eqb a k), (existsb (str_eqb k) l); reflexivity.
Qed.

(** X16: the index is built incrementally: going on from the index of a first
    list with a second list gives the index of the two lists put together;
    the keys already there keep their places, and every bucket is extended
    at its end by the entries of the second list with that code. *)
Theorem phoneticMap_incremental (dm : jsstring -> jsstring * jsstring)
    (es es' : list Entry) :
  exists m m',
    phoneticMap dm es = Some m
    /\ index_from dm m es' = Some m'
    /\ phoneticMap dm (es ++ es') = Some m'
    /\ (exists new_keys, map fst m' = map fst m ++ new_keys)
    /\ (forall k bucket,
           map_get m k = Some bucket ->
           map_get m' k
           = Some (bucket ++ filter (fun e => str_eqb (code_of dm e) k) es')).
Proof.
  exists (index_spec dm es), (index_spec dm (es ++ es')).
  split; [apply phoneticMap_is_spec |].
  split; [apply index_from_spec |].
  split; [apply phoneticMap_is_spec |]. split.
  - unfold index_spec, tabulate. rewrite !map_map. cbn [fst]. rewrite !map_id.
    rewrite map_app, first_occurrences_app. eexists. reflexivity.
  - intros k bucket Hget. unfold index_spec in *.
    destruct (in_dec jsstring_eq_dec k
                (first_occurrences (map (code_of dm) es))) as [Hin | Hout].
    + rewrite (map_get_tabulate_in _ _ _ Hin) in Hget.
      injection Hget as <-.
      rewrite map_get_tabulate_in.
      * unfold bucket_of. rewrite filter_app. reflexivity.
      * rewrite map_app, first_occurrences_app. apply in_or_app. left.
        exact Hin.
    + rewrite (map_get_tabulate_out _ _ _ Hout) in Hget. discriminate.
Qed.

Lemma app_separator_inj (c : codeunit) (a a' b b' : jsstring) :
  ~ In c a -> ~ In c a' -> a ++ c :: b = a' ++ c :: b' -> a = a' /\ b = b'.
Proof.
  revert a'. induction a as [| x a IH]; intros a' Ha Ha' E.
  - destruct a' as [| y a']; cbn [app] in E.
    + injection E as ->. auto.
    + injection E as <- _. exfalso. apply Ha'. left. reflexivity.
  - destruct a' as [| y a']; cbn [app] in E.
    + injection E as -> _. exfalso. apply Ha. left. reflexivity.
    + injection E as -> E.
      destruct (IH a') as (-> & ->); auto.
      * intros H. apply Ha. right. exact H.
      * intros H. apply Ha'. right. exact H.
Qed.

(** X17: when the primary codes hold no separator, two entries have the same
    key exactly when their primary codes agree and their secondary codes
    agree. *)
Theorem same_key_same_codes (dm : jsstring -> jsstring * jsstring)
    (e e' : Entry) :
  ~ In 124%N (fst (dm (name e))) ->
  ~ In 124%N (fst (dm (name e'))) ->
  (code_of dm e = code_of dm e' <-> dm (name e) = dm (name e')).
Proof.
  intros H H'. rewrite !code_of_join. split.
  - intros E.
    apply (@app_separator_inj 124%N _ _ _ _ H H') in E as (E1 & E2).
    destruct (dm (name e)), (dm (name e')). cbn [fst snd] in *. congruence.
  - intros ->. reflexivity.
Qed.

(** ** [clusters], further *)

Lemma fold_left_of_map (A B C : Type) (f : A -> C -> A) (g : B -> C)
    (l : list B) :
  forall a, fold_left (fun acc b => f acc (g b)) l a = fold_left f (map g l) a.
Proof. induction l as [| b l IH]; intros a; simpl; auto. Qed.

Lemma fold_add_between (lo hi : Q) (xs : list num) :
  Forall (fun v => exists q, v = Fin q /\ lo <= q <= hi) xs ->
  forall a, exists s,
    fold_left num_add xs (Fin a) = Fin s
    /\ a + inject_Z (Z.of_nat (length xs)) * lo <= s
       <= a + inject_Z (Z.of_nat (length xs)) * hi.
Proof.
  induction 1 as [| v xs (q & -> & Hq) _ IH]; intros a; cbn [fold_left].
  - exists a. split; [reflexivity |].
    change (inject_Z (Z.of_nat (length (@nil num)))) with 0. lra.
  - destruct (IH (a + q)) as (s & Hs & Hb). exists s. split; [exact Hs |].
    cbn [length]. rewrite Nat2Z.inj_succ. unfold Z.succ.
    rewrite inject_Z_plus. change (inject_Z 1) with 1.
    set (n := inject_Z (Z.of_nat (length xs))) in *.
    assert (E1 : (n + 1) * lo == n * lo + lo) by ring.
    assert (E2 : (n + 1) * hi == n * hi + hi) by ring.
    rewrite E1, E2. revert Hb. generalize (n * lo), (n * hi). intros; lra.
Qed.

(** The mean of rationals lies between the least and the largest of them. *)
Lemma mean_between (xs : list num) :
  xs <> [] -> Forall (fun v => exists q, v = Fin q) xs ->
  exists a lo hi : Q,
    num_div (fold_left num_add xs (Fin 0)) (num_of_nat (length xs)) = Fin a
    /\ Math_min xs = Fin lo /\ Math_max xs = Fin hi /\ lo <= a <= hi.
Proof.
  intros Hne Hfin.
  destruct (Math_min_Fin Hne Hfin) as (lo & Elo & _ & Hlo).
  destruct (Math_max_Fin Hne Hfin) as (hi & Ehi & _ & Hhi).
  assert (Hb : Forall (fun v => exists q, v = Fin q /\ lo <= q <= hi) xs).
  { rewrite Forall_forall in *. intros v Hv.
    destruct (Hfin v Hv) as (q & ->). exists q. split; [reflexivity |].
    split; [apply (Hlo _ Hv) | apply (Hhi _ Hv)]. }
  destruct (fold_add_between Hb 0) as (s & -> & Hs).
  assert (Hn : 0 < inject_Z (Z.of_nat (length xs))).
  { change 0 with (inject_Z (Z.of_nat 0)). apply inject_nat_lt.
    destruct xs; [congruence | simpl; lia]. }
  unfold num_of_nat. rewrite (num_div_Fin_pos _ Hn).
  exists (s / inject_Z (Z.of_nat (length xs))), lo, hi.
  split; [reflexivity |]. split; [exact Elo |]. split; [exact Ehi |].
  split.
  - apply Qle_shift_div_l; [exact Hn |]. rewrite Qmult_comm. lra.
  - apply Qle_shift_div_r; [exact Hn |]. rewrite Qmult_comm. lra.
Qed.

(** X18: for a cluster whose values are non-negative integers with a sum of
    at most 2^53 (the range in which the additions of the script are
    exact), the average value lies between the least and the largest value
    of its entries, and is that value when all are equal. *)
Theorem cluster_averages (lev : jsstring -> jsstring -> nat)
    (code : jsstring) (group : list Entry) :
  group <> [] ->
  Forall (fun e => nonneg_int (value e)) group ->
  num_le (fold_left num_add (map value group) (Fin 0))
         (num_of_Z 9007199254740992) ->
  exists a lo hi : Q,
    avgValue (mkCluster lev code group) = Fin a
    /\ (Math_min (map value group) = Fin lo
        /\ In (Fin lo) (map value group)
        /\ Forall (fun x => num_le (Fin lo) x) (map value group))
    /\ (Math_max (map value group) = Fin hi
        /\ In (Fin hi) (map value group)
        /\ Forall (fun x => num_le x (Fin hi)) (map value group))
    /\ 0 <= lo /\ lo <= a <= hi
    /\ (lo == hi -> a == lo).
Proof.
  intros Hne Hint _.
  assert (Hne' : map value group <> []).
  { destruct group; [congruence | discriminate]. }
  assert (Hfin : Forall (fun v => exists q, v = Fin q) (map value group)).
  { apply Forall_map. apply Forall_impl with (2 := Hint).
    intros e (z & _ & ->). eexists; reflexivity. }
  destruct (Math_min_Fin Hne' Hfin) as (lo & Elo & Hloin & Hloall).
  destruct (Math_max_Fin Hne' Hfin) as (hi & Ehi & Hhiin & Hhiall).
  destruct (mean_between Hne' Hfin) as (a & lo' & hi' & Ea & Elo' & Ehi' & Hb).
  rewrite Elo in Elo'. injection Elo' as <-.
  rewrite Ehi in Ehi'. injection Ehi' as <-.
  assert (Hlo : 0 <= lo).
  { apply in_map_iff in Hloin as (e & Ee & He).
    rewrite Forall_forall in Hint. destruct (Hint e He) as (z & Hz & Ez).
    rewrite Ez in Ee. injection Ee as <-.
    change 0 with (inject_Z 0). rewrite <- Zle_Qle. exact Hz. }
  exists a, lo, hi. split.
  - cbn [mkCluster avgValue].
    rewrite fold_left_of_map with (f := num_add).
    rewrite <- (length_map value group). exact Ea.
  - split; [auto |]. split; [auto |]. split; [exact Hlo |].
    split; [exact Hb |]. intros E. lra.
Qed.

Lemma concat_length_at_least (A : Type) (ls : list (list A)) :
  Forall (fun l => (2 <= length l)%nat) ls ->
  (2 * length ls <= length (concat ls))%nat.
Proof.
  induction 1 as [| l ls Hl _ IH]; simpl; [lia |].
  rewrite length_app. lia.
Qed.

(** X19: there are at most half as many clusters as entries, and the sort
    keeps their number; in particular fewer than two entries give no
    cluster. *)
Theorem clusters_count (lev : jsstring -> jsstring -> nat)
    (dm : jsstring -> jsstring * jsstring) (es : list Entry) :
  exists m,
    phoneticMap dm es = Some m
    /\ (2 * length (clusters lev m) <= length es)%nat
    /\ length (rank (clusters lev m)) = length (clusters lev m)
    /\ ((length es < 2)%nat -> rank (clusters lev m) = []).
Proof.
  exists (index_spec dm es). split; [apply phoneticMap_is_spec |].
  assert (Hcount : (2 * length (clusters lev (index_spec dm es))
                    <= length es)%nat).
  { etransitivity; [| apply (filter_length_le (colliding dm es) es)].
    rewrite <- (Permutation_length (cluster_members_concat lev dm es)).
    rewrite <- (length_map entries (clusters lev (index_spec dm es))).
    apply concat_length_at_least. apply Forall_map. apply Forall_forall.
    intros c Hc. apply (clusters_members lev _ c Hc). }
  assert (Hlen : length (rank (clusters lev (index_spec dm es)))
                 = length (clusters lev (index_spec dm es))).
  { apply Permutation_length.
    apply (Array_sort_Permutation confusionScore). }
  split; [exact Hcount |]. split; [exact Hlen |].
  intros Hsmall.
  destruct (rank (clusters lev (index_spec dm es))); [reflexivity |].
  cbn [length] in Hlen. lia.
Qed.

Lemma bucket_length_count (dm : jsstring -> jsstring * jsstring)
    (es : list Entry) (k : jsstring) :
  length (bucket_of dm es k)
  = count_occ jsstring_eq_dec (map (code_of dm) es) k.
Proof.
  unfold bucket_of. induction es as [| e es IH]; [reflexivity |].
  cbn [filter map count_occ].
  destruct (jsstring_eq_dec (code_of dm e) k) as [E | E].
  - apply str_eqb_eq in E. rewrite E. cbn [length]. rewrite IH. reflexivity.
  - apply str_eqb_neq in E. rewrite E. exact IH.
Qed.

(** X20: no cluster is reported exactly when the codes of the entries are
    pairwise different. *)
Theorem no_cluster_iff_no_collision (lev : jsstring -> jsstring -> nat)
    (dm : jsstring -> jsstring * jsstring) (es : list Entry) :
  exists m,
    phoneticMap dm es = Some m
    /\ (rank (clusters lev m) = [] <-> NoDup (map (code_of dm) es)).
Proof.
  exists (index_spec dm es). split; [apply phoneticMap_is_spec |].
  assert (Hrank : rank (clusters lev (index_spec dm es)) = []
                  <-> clusters lev (index_spec dm es) = []).
  { pose proof (Array_sort_Permutation confusionScore
                  (clusters lev (index_spec dm es))) as P.
    split; intros H.
    - unfold rank, by_score_desc in H. unfold desc_cmp in P.
      rewrite H in P. apply Permutation_nil. exact P.
    - rewrite H. reflexivity. }
  rewrite Hrank, clusters_of_index.
  rewrite (NoDup_count_occ jsstring_eq_dec). split.
  - intros H k. apply map_eq_nil in H.
    destruct (in_dec jsstring_eq_dec k (map (code_of dm) es)) as [Hin | Hout].
    + destruct (le_lt_dec (count_occ jsstring_eq_dec (map (code_of dm) es) k) 1)
        as [Hle | Hgt]; auto.
      exfalso.
      assert (Hk : In k (filter (fun k => 2 <=? length (bucket_of dm es k))
                           (first_occurrences (map (code_of dm) es)))).
      { apply filter_In. split; [apply first_occurrences_In; exact Hin |].
        rewrite bucket_length_count. apply Nat.leb_le. lia. }
      rewrite H in Hk. contradiction.
    + apply (count_occ_not_In jsstring_eq_dec) in Hout. lia.
  - intros H.
    rewrite filter_all_false; [reflexivity |].
    apply Forall_forall. intros k _. rewrite bucket_length_count.
    apply Nat.leb_gt. specialize (H k). lia.
Qed.

Section Reindexing.
Variable dm : jsstring -> jsstring * jsstring.
Variable B : jsstring -> list Entry.

Lemma first_occurrences_constant (k : jsstring) (l : list jsstring) :
  l <> [] -> Forall (fun k' => k' = k) l -> first_occurrences l = [k].
Proof.
  intros Hne H. induction H as [| a l -> Hl IH]; [congruence |].
  cbn [first_occurrences]. destruct l as [| b l]; [reflexivity |].
  rewrite IH by discriminate. cbn [filter]. rewrite str_eqb_refl. reflexivity.
Qed.

Lemma bucket_of_concat_absent (ks : list jsstring) (k : jsstring) :
  (forall k', In k' ks -> Forall (fun e => code_of dm e = k') (B k')) ->
  ~ In k ks -> bucket_of dm (concat (map B ks)) k = [].
Proof.
  intros HB Hk. unfold bucket_of. apply filter_all_false.
  apply Forall_forall. intros e He. apply in_concat in He as (l & Hl & He).
  apply in_map_iff in Hl as (k' & <- & Hk').
  specialize (HB k' Hk'). rewrite Forall_forall in HB.
  apply str_eqb_neq. rewrite (HB e He). intros ->. contradiction.
Qed.

Lemma bucket_of_concat (ks : list jsstring) (k : jsstring) :
  NoDup ks ->
  (forall k', In k' ks -> Forall (fun e => code_of dm e = k') (B k')) ->
  In k ks -> bucket_of dm (concat (map B ks)) k = B k.
Proof.
  induction 1 as [| a ks Ha Hnd IH]; intros HB Hk; [contradiction |].
  cbn [map concat]. unfold bucket_of. rewrite filter_app.
  fold (bucket_of dm (concat (map B ks)) k).
  assert (HB' : forall k', In k' ks ->
                           Forall (fun e => code_of dm e = k') (B k')).
  { intros k' Hk'. apply HB. right. exact Hk'. }
  destruct (jsstring_eq_dec a k) as [-> | Hak].
  - rewrite (@bucket_of_concat_absent ks k HB' Ha), app_nil_r.
    pose proof (HB k (or_introl eq_refl)) as Hcodes.
    clear - Hcodes. induction Hcodes as [| e l He _ IHl]; [reflexivity |].
    cbn [filter]. rewrite He, str_eqb_refl, IHl. reflexivity.
  - destruct Hk as [E | Hk]; [contradiction |].
    rewrite (IH HB' Hk).
    rewrite filter_all_false; [reflexivity |].
    apply Forall_impl with (2 := HB a (or_introl eq_refl)).
    intros e ->. apply str_eqb_neq. exact Hak.
Qed.

Lemma codes_of_concat (ks : list jsstring) :
  NoDup ks ->
  (forall k, In k ks ->
             B k <> [] /\ Forall (fun e => code_of dm e = k) (B k)) ->
  first_occurrences (map (code_of dm) (concat (map B ks))) = ks.
Proof.
  induction 1 as [| a ks Ha Hnd IH]; intros HB; [reflexivity |].
  cbn [map concat]. rewrite map_app, first_occurrences_app.
  destruct (HB a (or_introl eq_refl)) as (Hne & Hcodes).
  rewrite (@first_occurrences_constant a (map (code_of dm) (B a))).
  - rewrite IH by (intros k Hk; apply HB; right; exact Hk).
    cbn [app]. f_equal.
    transitivity (filter (fun _ : jsstring => true) ks).
    + apply filter_ext_in. intros k Hk. apply negb_true_iff.
      destruct (existsb (str_eqb k) (map (code_of dm) (B a))) eqn:E; auto.
      apply existsb_exists in E as (k' & Hk' & E). apply str_eqb_eq in E.
      subst k'. apply in_map_iff in Hk' as (e & He & Hin).
      rewrite Forall_forall in Hcodes. rewrite (Hcodes e Hin) in He.
      subst. contradiction.
    + clear. induction ks; simpl; congruence.
  - destruct (B a); [congruence | discriminate].
  - apply Forall_map. exact Hcodes.
Qed.

Lemma index_of_concat (ks : list jsstring) :
  NoDup ks ->
  (forall k, In k ks ->
             B k <> [] /\ Forall (fun e => code_of dm e = k) (B k)) ->
  index_spec dm (concat (map B ks)) = tabulate B ks.
Proof.
  intros Hnd HB. unfold index_spec. rewrite (@codes_of_concat ks Hnd HB).
  apply tabulate_ext. intros k Hk. apply bucket_of_concat; auto.
  intros k' Hk'. apply HB. exact Hk'.
Qed.
End Reindexing.

Lemma filter_idempotent (A : Type) (p : A -> bool) (l : list A) :
  filter p (filter p l) = filter p l.
Proof.
  rewrite filter_filter. apply filter_ext. intros a. destruct (p a); auto.
Qed.

(** X21: the clusters are a fixed point of the pipeline: indexing the
    members of the clusters, put end to end, gives one bucket per cluster,
    with the same code, the same entries and the same order, and building
    clusters from these buckets gives the same clusters again. *)
Theorem clusters_reindexed (lev : jsstring -> jsstring -> nat)
    (dm : jsstring -> jsstring * jsstring) (es : list Entry) :
  exists m,
    phoneticMap dm es = Some m
    /\ phoneticMap dm (concat (map entries (clusters lev m)))
       = Some (map (fun c => (phoneticCode c, entries c)) (clusters lev m))
    /\ clusters lev
         (map (fun c => (phoneticCode c, entries c)) (clusters lev m))
       = clusters lev m.
Proof.
  exists (index_spec dm es). split; [apply phoneticMap_is_spec |].
  rewrite clusters_of_index.
  set (keep := fun k => 2 <=? length (bucket_of dm es k)).
  set (ks := filter keep (first_occurrences (map (code_of dm) es))).
  rewrite !map_map. cbn [entries phoneticCode mkCluster].
  assert (Hnd : NoDup ks).
  { apply NoDup_filter. apply first_occurrences_NoDup. }
  assert (HB : forall k, In k ks ->
                 bucket_of dm es k <> []
                 /\ Forall (fun e => code_of dm e = k) (bucket_of dm es k)).
  { intros k Hk. apply filter_In in Hk as (_ & Hk). unfold keep in Hk.
    apply Nat.leb_le in Hk. split.
    - intros E. rewrite E in Hk. simpl in Hk. lia.
    - apply Forall_forall. intros e He. apply bucket_members in He. tauto. }
  split.
  - rewrite phoneticMap_is_spec. f_equal.
    apply (index_of_concat dm (bucket_of dm es) Hnd HB).
  - rewrite clusters_is_spec. unfold clusters_spec.
    rewrite filter_of_map, map_map. cbn [fst snd]. f_equal.
    unfold big_enough. cbn [snd]. fold keep. unfold ks.
    apply filter_idempotent.
Qed.

(** ** The sort, further *)

Lemma num_le_not_ltb (a b : num) : num_le b a -> num_ltb a b = false.
Proof.
  destruct a as [p | | |], b as [q | | |]; simpl; auto; try contradiction.
  intros H. destruct (Qcompare_spec p q); auto. exfalso. lra.
Qed.

Section SortedInput.
Variable A : Type.
Variable key : A -> num.

Lemma sort_insert_last (x : A) (acc : list A) :
  Forall (fun y => num_ltb (key y) (key x) = false) acc ->
  sort_insert (desc_cmp key) x acc = acc ++ [x].
Proof.
  induction 1 as [| y acc Hy _ IH]; [reflexivity |].
  rewrite sort_insert_unfold, Hy, IH. reflexivity.
Qed.

Lemma sort_fold_sorted (l : list A) :
  StronglySorted (desc key) l ->
  forall acc,
    Forall (fun y => Forall (fun x => num_ltb (key y) (key x) = false) l) acc ->
    fold_left (fun sorted x => sort_insert (desc_cmp key) x sorted) l acc
    = acc ++ l.
Proof.
  induction 1 as [| x l Hs IH Hx]; intros acc Hacc; cbn [fold_left].
  - rewrite app_nil_r. reflexivity.
  - rewrite sort_insert_last.
    + rewrite IH, <- app_assoc; [reflexivity |].
      apply Forall_app. split.
      * apply Forall_impl with (2 := Hacc). intros y Hy.
        inversion Hy; assumption.
      * constructor; [| constructor].
        apply Forall_impl with (2 := Hx). intros z Hz.
        apply num_le_not_ltb. exact Hz.
    + apply Forall_impl with (2 := Hacc). intros y Hy.
      inversion Hy; assumption.
Qed.

Lemma Array_sort_sorted_input (l : list A) :
  StronglySorted (desc key) l -> Array_sort (desc_cmp key) l = l.
Proof.
  intros H. apply (@sort_fold_sorted l H []). constructor.
Qed.
End SortedInput.

(** X22: clusters that are already in descending order of score are left as
    they are by the sort, so that sorting twice is the same as sorting once
    (for scores that are not NaN). *)
Theorem rank_idempotent (cs : list Cluster) :
  Forall (fun c => confusionScore c <> NaN) cs ->
  (StronglySorted (fun a b => num_le (confusionScore b) (confusionScore a)) cs
   -> rank cs = cs)
  /\ rank (rank cs) = rank cs.
Proof.
  intros H. split.
  - intros Hs. apply (@Array_sort_sorted_input Cluster confusionScore cs Hs).
  - apply (@Array_sort_sorted_input Cluster confusionScore).
    apply (Array_sort_sorted confusionScore H).
Qed.

(** ** The report *)

(** X23: for a cluster made by the script, the diversity printed in the
    report is the diversity that entered its score, the value range printed
    is the one its value spread was computed from, and the count of
    difficult names is at most the group size printed. *)
Theorem report_agrees_with_score (lev : jsstring -> jsstring -> nat)
    (m : OMap (list Entry)) (c : Cluster) :
  In c (clusters lev m) ->
  reported_diversity lev c
  = ConfusionFactors.orthoDiversity (confusionFactors lev (entries c))
  /\ ConfusionFactors.valueSpread (confusionFactors lev (entries c))
     = num_sub (Fin 1) (num_div (lowest_value c) (highest_value c))
  /\ confusionScore c = calculateConfusionScore lev (entries c)
  /\ (difficult_names c <= length (names c))%nat
  /\ (2 <= length (names c))%nat.
Proof.
  intros H. apply clusters_In in H as (code & group & _ & Hlen & ->).
  unfold reported_diversity, difficult_names, lowest_value, highest_value.
  cbn [mkCluster names entries confusionScore confusionFactors
         ConfusionFactors.orthoDiversity ConfusionFactors.valueSpread].
  split; [reflexivity |]. split; [reflexivity |]. split; [reflexivity |].
  rewrite length_map. split; [apply filter_length_le | exact Hlen].
Qed.

(** ** The whole script *)

Section WholeScript.
Variable jw : jsstring -> jsstring -> num.
Variable lev : jsstring -> jsstring -> nat.
Variable dm : jsstring -> jsstring * jsstring.

Hypothesis jw_range : forall a b, in01 (jw a b).
Hypothesis lev_bound :
  forall a b, (lev a b <= Nat.max (length a) (length b))%nat.

Lemma score_of_well_formed (group : list Entry) :
  group <> [] -> Forall (well_formed jw) group ->
  in01 (calculateConfusionScore lev group).
Proof using jw_range lev_bound.
  intros Hgroup Hwf.
  assert (Hne : forall (B : Type) (f : Entry -> B), map f group <> []).
  { intros B f. destruct group; [congruence | discriminate]. }
  assert (Hc : Forall nonneg (map complexity group)).
  { apply Forall_map. apply Forall_impl with (2 := Hwf).
    intros e (_ & He & _). unfold ingested in He. rewrite He.
    apply calculateComplexity_nonneg. apply jw_range. }
  assert (Hv : Forall (fun v => exists q, v = Fin q /\ 0 < q)
                 (map value group)).
  { apply Forall_map. apply Forall_impl with (2 := Hwf).
    intros e (_ & _ & z & Hz & ->). eexists. split; [reflexivity |].
    change 0 with (inject_Z 0). rewrite <- Zlt_Qlt. exact Hz. }
  assert (Hvfin : Forall (fun v => exists q, v = Fin q) (map value group)).
  { apply Forall_impl with (2 := Hv). intros v (q & -> & _). eauto. }
  destruct (Math_max_Fin (Hne _ complexity) (nonneg_is_Fin Hc))
    as (c & Ec & Hcin & _).
  assert (Hc0 : 0 <= c).
  { rewrite Forall_forall in Hc. apply (Hc _ Hcin). }
  destruct (Math_min_Fin (Hne _ value) Hvfin) as (lo & Elo & Hloin & Hloall).
  destruct (Math_max_Fin (Hne _ value) Hvfin) as (hi & Ehi & Hhiin & _).
  assert (Hlo0 : 0 < lo).
  { rewrite Forall_forall in Hv. destruct (Hv _ Hloin) as (q & E & Hq).
    injection E as ->. exact Hq. }
  assert (Hlohi : lo <= hi).
  { rewrite Forall_forall in Hloall. apply (Hloall _ Hhiin). }
  assert (Hd : in01 (calculateOrthographicDiversity lev (map name group))).
  { apply (@diversity_in01 lev lev_bound). apply Forall_map.
    apply Forall_impl with (2 := Hwf). intros e (He & _). exact He. }
  destruct (calculateOrthographicDiversity lev (map name group))
    as [d | | |] eqn:Ed; cbn [in01] in Hd; try contradiction.
  unfold calculateConfusionScore. cbv zeta.
  cbn [confusionFactors ConfusionFactors.sizePenalty
         ConfusionFactors.complexity ConfusionFactors.valueSpread
         ConfusionFactors.orthoDiversity].
  rewrite Ec, Elo, Ehi, Ed, length_map. unfold num_of_nat.
  rewrite (num_div_Fin_pos _ (q := 5)) by lra.
  rewrite num_div_Fin_pos by lra.
  destruct (min2_Fin 1 (inject_Z (Z.of_nat (length group)) / 5))
    as (r1 & -> & Hr1).
  destruct (min2_Fin 1 c) as (r2 & -> & Hr2).
  cbn [num_mul num_add num_sub num_neg in01].
  assert (B1 : 0 <= r1 <= 1).
  { rewrite Hr1. split; [apply Q.min_glb; [lra |] | apply Q.le_min_l].
    pose proof (inject_nat_nonneg (length group)). q_prep. lra. }
  assert (B2 : 0 <= r2 <= 1).
  { rewrite Hr2. split; [apply Q.min_glb; lra | apply Q.le_min_l]. }
  assert (Hhi0 : 0 < hi) by lra.
  assert (Hlo' : 0 <= lo) by lra.
  pose proof (@ratio_in01 lo hi Hhi0 (conj Hlo' Hlohi)) as B3.
  revert B3. generalize (lo / hi). intros t B3. lra.
Qed.
(** X24: on a file with one line [name,numeral] per row, the names being
    non-empty and free of commas and newlines and the values between 1 and
    2^53, the script runs to its end; every cluster it reports has two
    members or more and a score in the unit interval, and the clusters come
    in descending order of score. *)
Theorem main_on_written_data (toFixed : num -> nat -> jsstring)
    (toStr : num -> jsstring) (rows : list (jsstring * N)) :
  Forall (fun row => fst row <> [] /\ ~ In comma (fst row)
                     /\ ~ In newline (fst row)
                     /\ (1 <= snd row <= 9007199254740992)%N) rows ->
  exists cs,
    main jw lev dm toFixed toStr (join [newline] (map line_of rows))
    = Some (cs, report toFixed toStr lev cs, log_message toStr cs)
    /\ Forall (fun c => (2 <= length (entries c))%nat
                        /\ in01 (confusionScore c)) cs
    /\ StronglySorted
         (fun a b => num_le (confusionScore b) (confusionScore a)) cs.
Proof using jw_range lev_bound.
  intros Hrows. unfold main.
  rewrite rows_of_lines_written.
  2:{ apply Forall_impl with (2 := Hrows). intros r (_ & H1 & H2 & _).
      auto. }
  unfold analyse. rewrite phoneticMap_is_spec.
  set (es := map (mkEntry jw)
               (map (fun row => (fst row, num_of_Z (Z.of_N (snd row)))) rows)).
  assert (Hes : Forall (well_formed jw) es).
  { unfold es. rewrite map_map. apply Forall_map.
    apply Forall_impl with (2 := Hrows). intros r (Hne & _ & _ & Hpos & _).
    split; [exact Hne |]. split; [reflexivity |].
    exists (Z.of_N (snd r)). split; [lia | reflexivity]. }
  assert (Hcs : Forall (fun c => (2 <= length (entries c))%nat
                                 /\ in01 (confusionScore c))
                  (clusters lev (index_spec dm es))).
  { apply Forall_forall. intros c Hc.
    split; [apply (clusters_members lev _ c Hc) |].
    apply clusters_In in Hc as (code & group & Hin & Hlen & ->).
    cbn [confusionScore mkCluster]. apply score_of_well_formed.
    - intros ->. simpl in Hlen. lia.
    - unfold index_spec, tabulate in Hin.
      apply in_map_iff in Hin as (k & E & _). inversion E; subst.
      unfold bucket_of. rewrite Forall_forall in *. intros e He.
      apply filter_In in He as (He & _). apply Hes. exact He. }
  eexists. split; [reflexivity |]. split.
  - apply (Permutation_Forall
             (Permutation_sym (Array_sort_Permutation confusionScore _))).
    exact Hcs.
  - apply (Array_sort_sorted confusionScore).
    apply Forall_impl with (2 := Hcs). intros c (_ & Hc) E.
    rewrite E in Hc. exact Hc.
Qed.
End WholeScript.

(** ** The further properties at concrete inputs *)

Lemma ref_levenshtein_refl (a : jsstring) : ref_levenshtein a a = 0%nat.
Proof.
  induction a as [| x a IH]; [reflexivity |].
  rewrite ref_levenshtein_cons, N.eqb_refl, IH. apply Nat.min_r. lia.
Qed.

Lemma parseInt_reads_numeral_witness :
  parseInt10 (lit " " ++ decimal 42 ++ lit "px") = num_of_Z 42
  /\ parseInt10 (lit " " ++ 45%N :: decimal 42 ++ lit "px") = num_of_Z (-42).
Proof.
  assert (H1 : (42 <= 9007199254740992)%N) by lia.
  assert (H2 : Forall (fun c => is_space c = true) (lit " "))
    by (repeat constructor).
  assert (H3 : forall c, hd_error (lit "px") = Some c -> is_digit c = false).
  { intros c E. injection E as <-. reflexivity. }
  destruct (@parseInt_reads_numeral (lit " ") (lit "px") 42%N H1 H2 H3)
    as (Ha & _ & Hb).
  split; [exact Ha | exact Hb].
Defined.

Lemma rows_of_written_data_witness :
  rows_of_data (join [newline] (map line_of written_rows))
  = [(lit "Ann", num_of_Z 3); (lit "Zed", num_of_Z 12);
     (lit "Anne", num_of_Z 5)].
Proof.
  apply (@rows_of_written_data written_rows).
  repeat constructor; try (intros H; vm_compute in H; intuition discriminate);
    try (vm_compute; discriminate).
Defined.

Lemma difficult_by_length_or_spelling_witness :
  ingested ref_similarity (example_entry "Katherine" 10)
  /\ difficult (example_entry "Katherine" 10) = true.
Proof.
  assert (H1 : ingested ref_similarity (example_entry "Katherine" 10))
    by reflexivity.
  split; [exact H1 |].
  apply (@difficult_by_length_or_spelling ref_similarity
           (example_entry "Katherine" 10) H1 (ref_similarity_in01 _ _)).
  left. simpl. lia.
Defined.

Lemma diversity_same_names_witness :
  num_eq (calculateOrthographicDiversity ref_levenshtein
            [lit "Ann"; lit "Ann"; lit "Ann"]) (Fin 0).
Proof.
  apply (@diversity_same_names ref_levenshtein (lit "Ann")
           [lit "Ann"; lit "Ann"; lit "Ann"] ref_levenshtein_refl).
  - discriminate.
  - repeat constructor.
Defined.

Lemma diversity_unit_interval_witness :
  in01 (calculateOrthographicDiversity ref_levenshtein
          [lit "Ann"; lit "Anne"; lit "Hanna"]).
Proof.
  apply (@diversity_unit_interval ref_levenshtein
           [lit "Ann"; lit "Anne"; lit "Hanna"] ref_levenshtein_bound).
  repeat constructor; discriminate.
Defined.

Lemma diversity_empty_names_witness :
  calculateOrthographicDiversity ref_levenshtein [[]; lit "Ann"; []] = NaN.
Proof.
  apply (@diversity_empty_names ref_levenshtein [[]; lit "Ann"; []] 0 2);
    [reflexivity | lia | reflexivity | reflexivity].
Defined.

Lemma confusion_score_NaN_value_witness :
  In unread_entry unread_group
  /\ calculateConfusionScore ref_levenshtein unread_group = NaN.
Proof.
  assert (H1 : In unread_entry unread_group) by (right; left; reflexivity).
  split; [exact H1 |].
  apply (@confusion_score_NaN_value ref_levenshtein unread_group unread_entry
           H1 eq_refl).
Defined.

Lemma value_spread_cases_witness :
  exists lo hi : Q,
    (Math_min (map value kate_group) = Fin lo
     /\ In (Fin lo) (map value kate_group)
     /\ Forall (fun x => num_le (Fin lo) x) (map value kate_group))
    /\ (Math_max (map value kate_group) = Fin hi
        /\ In (Fin hi) (map value kate_group)
        /\ Forall (fun x => num_le x (Fin hi)) (map value kate_group))
    /\ lo <= hi
    /\ (~ hi == 0 ->
        exists v : Q,
          ConfusionFactors.valueSpread (confusionFactors ref_levenshtein kate_group) = Fin v
          /\ (lo == hi -> v == 0)
          /\ (lo == 0 -> v == 1)
          /\ (0 <= lo -> 0 <= v <= 1)
          /\ (lo < 0 -> 0 < hi -> 1 <= v)
          /\ (hi < 0 -> v <= 0)).
Proof.
  assert (H1 : kate_group <> []) by discriminate.
  assert (H2 : Forall (fun e => exists z : Z, value e = num_of_Z z) kate_group)
    by (repeat constructor; eexists; reflexivity).
  exact (@value_spread_cases ref_levenshtein kate_group H1 H2).
Defined.

Lemma same_key_same_codes_witness :
  code_of ref_encoder (example_entry "Ann" 3)
  = code_of ref_encoder (example_entry "Anne" 5)
  <-> ref_encoder (lit "Ann") = ref_encoder (lit "Anne").
Proof.
  apply (@same_key_same_codes ref_encoder (example_entry "Ann" 3)
           (example_entry "Anne" 5));
    intros H; vm_compute in H; intuition discriminate.
Defined.

Lemma cluster_averages_witness :
  exists a lo hi : Q,
    avgValue (mkCluster ref_levenshtein (lit "K0RN|KTRN") kate_group) = Fin a
    /\ (Math_min (map value kate_group) = Fin lo
        /\ In (Fin lo) (map value kate_group)
        /\ Forall (fun x => num_le (Fin lo) x) (map value kate_group))
    /\ (Math_max (map value kate_group) = Fin hi
        /\ In (Fin hi) (map value kate_group)
        /\ Forall (fun x => num_le x (Fin hi)) (map value kate_group))
    /\ 0 <= lo /\ lo <= a <= hi
    /\ (lo == hi -> a == lo).
Proof.
  assert (H1 : kate_group <> []) by discriminate.
  assert (H2 : Forall (fun e => nonneg_int (value e)) kate_group).
  { repeat constructor; eexists; (split; [| reflexivity]); lia. }
  assert (H3 : num_le (fold_left num_add (map value kate_group) (Fin 0))
                      (num_of_Z 9007199254740992))
    by (vm_compute; discriminate).
  exact (@cluster_averages ref_levenshtein (lit "K0RN|KTRN") kate_group
           H1 H2 H3).
Defined.

Lemma rank_idempotent_witness :
  Forall (fun c => confusionScore c <> NaN) example_clusters
  /\ rank (rank example_clusters) = rank example_clusters.
Proof.
  assert (H : Forall (fun c => confusionScore c <> NaN) example_clusters).
  { repeat constructor; vm_compute; discriminate. }
  split; [exact H |].
  apply (@rank_idempotent example_clusters H).
Defined.

Lemma report_agrees_with_score_witness :
  let c := mkCluster ref_levenshtein (lit "K0RN|KTRN") kate_group in
  In c (clusters ref_levenshtein kate_map)
  /\ reported_diversity ref_levenshtein c
     = ConfusionFactors.orthoDiversity
         (confusionFactors ref_levenshtein (entries c)).
Proof.
  cbv zeta.
  assert (H : In (mkCluster ref_levenshtein (lit "K0RN|KTRN") kate_group)
                (clusters ref_levenshtein kate_map))
    by (left; reflexivity).
  split; [exact H |].
  apply (@report_agrees_with_score ref_levenshtein kate_map _ H).
Defined.

Lemma main_on_written_data_witness :
  exists cs,
    main ref_similarity ref_levenshtein ref_encoder
      (fun _ _ => []) (fun _ => [])
      (join [newline] (map line_of written_rows))
    = Some (cs, report (fun _ _ => []) (fun _ => []) ref_levenshtein cs,
            log_message (fun _ => []) cs)
    /\ Forall (fun c => (2 <= length (entries c))%nat
                        /\ in01 (confusionScore c)) cs.
Proof.
  destruct (@main_on_written_data ref_similarity ref_levenshtein ref_encoder
              ref_similarity_in01 ref_levenshtein_bound
              (fun _ _ => []) (fun _ => []) written_rows)
    as (cs & Hmain & Hcs & _).
  - repeat constructor; try discriminate;
      try (intros H; vm_compute in H; intuition discriminate); try (vm_compute; discriminate).
  - exists cs. split; assumption.
Defined.
